(** * RCIU (Random Capital Instrument Updates): the validator and the
      reconciliation engine of [instrument-updates-generator.js]

    The development has three layers, in the order of the source file:

    - JavaScript strings and parsed JSON values, [doParseAndValidation]
      (lines 68-103), and what the specification asks of a body;
    - validated rows, [createInstrument], [instrumentSortCompare],
      [selectInstruments], the same stages of the second source file
      [unnamed/part_000], and the array operations the engine uses
      ([Array.prototype.sort], the [diff] of the fast-array-diff package);
    - the effectful part, [initDataFileToS3], [saveDataFileToS3] and
      [Handler], in a state-and-exception monad over the S3 bucket, the
      clock and an event log.

    Logging through winston has no effect on any value and is left out. *)

From Stdlib Require Import ZArith String Ascii PrimFloat.
From HB Require Import structures.
From mathcomp Require Import ssreflect ssrfun ssrbool eqtype ssrnat div seq path.

Set Implicit Arguments.
Unset Strict Implicit.
Unset Printing Implicit Defensive.

(** ** JavaScript strings

    A JavaScript string is a finite sequence of UTF-16 code units; [.length]
    counts code units and [<] / [>] compare code unit by code unit. *)

Definition jsstring := seq nat.

(** ASCII literals of the source, as code units. *)
Definition u (s : string) : jsstring :=
  [seq nat_of_ascii c | c <- list_ascii_of_string s].

(** [a < b] on two strings: the first differing code unit decides, and a
    proper prefix is smaller. *)
Fixpoint js_lt (a b : jsstring) : bool :=
  match a, b with
  | _, [::] => false
  | [::], _ :: _ => true
  | x :: a', y :: b' => (x < y) || ((x == y) && js_lt a' b')
  end.

Definition js_gt (a b : jsstring) : bool := js_lt b a.

(** ** Parsed JSON

    The result of [JSON.parse]. Numbers are IEEE-754 doubles; an object is
    the list of its own properties in the order of the text, a later
    occurrence of a key overriding an earlier one. A JavaScript value read
    out of parsed JSON is a [json] or [undefined]. *)

Inductive json : Type :=
| JNull
| JBool (b : bool)
| JNumber (x : float)
| JString (s : jsstring)
| JArray (elements : seq json)
| JObject (properties : seq (jsstring * json)).

Definition value := option json.
Definition undefined : value := None.

Fixpoint getProperty (properties : seq (jsstring * json)) (key : jsstring) : value :=
  if properties is (k, v) :: rest then
    if getProperty rest key is Some w then Some w
    else if k == key then Some v else undefined
  else undefined.

(** [_.isArray], [_.isString], [.length] and [row[i]]. [len] and [cell] are
    only ever evaluated behind the corresponding type test (the [||] of the
    source short-circuits), so their value elsewhere is never observed. *)
Definition isArray (v : value) : bool :=
  if v is Some (JArray _) then true else false.

Definition isString (v : value) : bool :=
  if v is Some (JString _) then true else false.

Definition len (v : value) : nat :=
  match v with
  | Some (JArray elements) => size elements
  | Some (JString s) => size s
  | _ => 0
  end.

Definition cell (row : json) (i : nat) : value :=
  if row is JArray elements then nth undefined [seq Some e | e <- elements] i
  else undefined.

(** ** Exceptions and outcomes *)

Inductive exn : Type :=
| SyntaxError                                   (* JSON.parse *)
| TypeError                                     (* property read on null *)
| InstrumentError (message : string) (invalidElement : value)
| FetchError                                    (* getInstrumentsData *)
| StorageError                                  (* a rejected S3 request *)
| RenderError.                                  (* ejs.renderFile *)

Inductive Outcome (A : Type) : Type :=
| Return (a : A)
| Throw (e : exn).
Arguments Throw {A} e.

Definition obind {A B} (o : Outcome A) (k : A -> Outcome B) : Outcome B :=
  match o with Return a => k a | Throw e => Throw e end.

(** [rows.forEach(check)] where [check] may throw: the first exception
    ends the loop. *)
Fixpoint forEach {A} (s : seq A) (body : A -> Outcome unit) : Outcome unit :=
  if s is x :: s' then obind (body x) (fun _ => forEach s' body)
  else Return tt.

(** ** The validator *)

(** [ISIN_CODE_REGEX = /^([A-Z]{2})[A-Z0-9]{9}\d{1}$/], without flags: the
    anchors are the two ends of the string and the classes are ranges of
    code units. [repeat c n] consumes exactly [n] code units of class [c]. *)
Definition upper (c : nat) : bool := (65 <= c) && (c <= 90).
Definition digit (c : nat) : bool := (48 <= c) && (c <= 57).

Fixpoint repeat (class : nat -> bool) (n : nat) (s : jsstring) : option jsstring :=
  match n, s with
  | 0, _ => Some s
  | n'.+1, c :: s' => if class c then repeat class n' s' else None
  | _.+1, [::] => None
  end.

Definition ISIN_CODE_REGEX (s : jsstring) : bool :=
  if repeat upper 2 s is Some s1 then
    if repeat (fun c => upper c || digit c) 9 s1 is Some s2 then
      if repeat digit 1 s2 is Some s3 then nilp s3 else false
    else false
  else false.

(** [s.match(re)] used as a condition: a match array is truthy, [null] is
    not. Only evaluated on strings. *)
Definition matches (v : value) (re : jsstring -> bool) : bool :=
  if v is Some (JString s) then re s else false.

(** Lines 83-99 (88-106 in part_000): the five field checks, identical in
    the two variants. [createInstrument] names the cells 0..4 of the row. *)
Definition validateFields (instrumentRow : json) : Outcome unit :=
  let ticker := cell instrumentRow 0 in
  let shortName := cell instrumentRow 1 in
  let longName := cell instrumentRow 2 in
  let isinCode := cell instrumentRow 3 in
  let type := cell instrumentRow 4 in
  if ~~ isString ticker || (len ticker < 1) || (12 < len ticker) then
    Throw (InstrumentError "invalid instrument ticker" ticker)
  else if ~~ isString shortName || (len shortName < 2) || (24 < len shortName) then
    Throw (InstrumentError "invalid instrument short name" shortName)
  else if ~~ isString longName || (len longName < 2) || (64 < len longName) then
    Throw (InstrumentError "invalid instrument long name" longName)
  else if ~~ isString isinCode || ~~ matches isinCode ISIN_CODE_REGEX then
    Throw (InstrumentError "invalid instrument ISIN code" isinCode)
  else if ~~ isString type || (24 < len type) then
    Throw (InstrumentError "invalid instrument type" type)
  else Return tt.

(** [parsedBody.data]: reading a property of [null] throws; every other
    JSON value has no [data] unless it is an object with that key. *)
Definition dot_data (parsedBody : json) : Outcome value :=
  match parsedBody with
  | JNull => Throw TypeError
  | JObject properties => Return (getProperty properties (u "data"))
  | _ => Return undefined
  end.

(** The body text is represented by what [JSON.parse] makes of it: [None]
    when it is not JSON. *)
Definition validateWith (checkRow : json -> Outcome unit) (body : option json)
  : Outcome (seq json) :=
  if body is Some parsedBody then
    obind (dot_data parsedBody) (fun data =>
      if ~~ isArray data || (len data == 0) then
        Throw (InstrumentError "invalid data" data)
      else
        let instruments := if data is Some (JArray rows) then rows else [::] in
        obind (forEach instruments checkRow) (fun _ => Return instruments))
  else Throw SyntaxError.

(** instrument-updates-generator.js, lines 68-103. *)
Definition validateRow (instrumentRow : json) : Outcome unit :=
  if ~~ isArray (Some instrumentRow) || (len (Some instrumentRow) < 5)
     || (7 < len (Some instrumentRow)) then
    Throw (InstrumentError "invalid instrument row" (Some instrumentRow))
  else validateFields instrumentRow.

Definition doParseAndValidation : option json -> Outcome (seq json) :=
  validateWith validateRow.

(** ** What the specification asks of a body (sections 3 and 4.1)

    These predicates follow the words of the specification, not the code:
    the field constraints of the data model, the shape of a row and the
    shape of the whole document. *)

Definition between (lo hi : nat) (v : value) : bool :=
  if v is Some (JString s) then (lo <= size s) && (size s <= hi) else false.

(** Two uppercase letters, nine uppercase letters or digits, one trailing
    digit: twelve characters in all. *)
Definition isinPattern (v : value) : bool :=
  if v is Some (JString s) then
    [&& size s == 12, all upper (take 2 s),
        all (fun c => upper c || digit c) (take 9 (drop 2 s))
      & all digit (drop 11 s)]
  else false.

(** The constraint on the field at position [i]: ticker, shortName,
    longName, isinCode, type. Positions beyond 4 are unconstrained. *)
Definition constraint (i : nat) : value -> bool :=
  nth xpredT [:: between 1 12; between 2 24; between 2 64; isinPattern; between 0 24] i.

Definition rowShape (row : json) : bool :=
  [&& isArray (Some row), 5 <= len (Some row) & len (Some row) <= 7].

Definition fieldsOk (row : json) : bool :=
  all (fun i => constraint i (cell row i)) (iota 0 5).

Definition rowOk (row : json) : bool := rowShape row && fieldsOk row.

(** The [data] field of the document, [undefined] when there is none. *)
Definition dataField (parsedBody : json) : value :=
  if parsedBody is JObject properties then getProperty properties (u "data")
  else undefined.

Definition dataShape (data : value) : bool := isArray data && (0 < len data).

Definition rowsOf (data : value) : seq json :=
  if data is Some (JArray rows) then rows else [::].

Definition bodyOk (parsedBody : json) : bool :=
  dataShape (dataField parsedBody) && all rowOk (rowsOf (dataField parsedBody)).

(** The element a validation error must carry: the [data] field when the
    document is misshapen, else the first row that is not well-formed when
    it is misshapen, else the field of that row that breaks its constraint. *)
Definition rowOffence (row : json) (e : value) : Prop :=
  (e = Some row /\ ~~ rowShape row) \/
  (rowShape row /\ exists2 i, i < 5 & e = cell row i /\ ~~ constraint i e).

Definition offending (parsedBody : json) (e : value) : Prop :=
  (e = dataField parsedBody /\ ~~ dataShape e) \/
  (dataShape (dataField parsedBody) /\
   exists before row after,
     [/\ rowsOf (dataField parsedBody) = before ++ row :: after,
         all rowOk before, ~~ rowOk row & rowOffence row e]).

(** A row on which the two variants of the validator differ: an array of
    six or seven cells. *)
Definition longRow (row : json) : bool :=
  isArray (Some row) && (len (Some row) \in [:: 6; 7]).

Definition bodyRows (b : option json) : seq json :=
  if b is Some parsedBody then rowsOf (dataField parsedBody) else [::].

(** ** Validated rows and instruments

    Past [doParseAndValidation] every row is an array of five to seven
    cells whose first five are strings. The remaining stages are embedded
    on rows in that form; [asInstrumentRow] is the view of a raw row, and
    [rows_validated] below shows that it loses nothing on what the
    validator returns. *)

Record InstrumentRow : Type := Row {
  cell0 : jsstring; cell1 : jsstring; cell2 : jsstring;
  cell3 : jsstring; cell4 : jsstring;
  others : seq json
}.

Definition rowJSON (r : InstrumentRow) : json :=
  JArray [:: JString (cell0 r), JString (cell1 r), JString (cell2 r),
             JString (cell3 r), JString (cell4 r) & others r].

Definition asInstrumentRow (row : json) : option InstrumentRow :=
  if row is JArray [:: JString c0, JString c1, JString c2, JString c3,
                       JString c4 & rest]
  then Some (Row c0 c1 c2 c3 c4 rest) else None.

Definition typedRows (rows : seq json) : seq InstrumentRow :=
  pmap asInstrumentRow rows.

Record Instrument : Type := {
  ticker : jsstring;
  shortName : jsstring;
  longName : jsstring;
  isinCode : jsstring;
  type : jsstring
}.

Definition tupleOfInstrument (i : Instrument) :=
  (ticker i, shortName i, longName i, isinCode i, type i).
Definition instrumentOfTuple (t : jsstring * jsstring * jsstring * jsstring * jsstring) :=
  let: (a, b, c, d, e) := t in
  {| ticker := a; shortName := b; longName := c; isinCode := d; type := e |}.
Definition tupleOfInstrumentK : cancel tupleOfInstrument instrumentOfTuple :=
  fun i => let: Build_Instrument _ _ _ _ _ := i in erefl.
HB.instance Definition _ := Equality.copy Instrument (can_type tupleOfInstrumentK).

(** Lines 45-53. *)
Definition createInstrument (instrumentRow : InstrumentRow) : Instrument :=
  {| ticker := cell0 instrumentRow;
     shortName := cell1 instrumentRow;
     longName := cell2 instrumentRow;
     isinCode := cell3 instrumentRow;
     type := cell4 instrumentRow |}.

(** Lines 55-57: [(a.isinCode > b.isinCode) - (a.isinCode < b.isinCode)],
    the booleans read as 0 and 1. *)
Definition instrumentSortCompare (a b : Instrument) : Z :=
  (Z.b2z (js_gt (isinCode a) (isinCode b)) - Z.b2z (js_lt (isinCode a) (isinCode b)))%Z.

(** [array.sort(compare)]: [a] stays before [b] when [compare(a, b) <= 0].
    The sort is the stable one of ECMAScript 2019; on elements that the
    comparator tells apart pairwise every sorting algorithm gives the same
    array. *)
Definition Array_sort {T : Type} (compare : T -> T -> Z) (s : seq T) : seq T :=
  sort (fun a b => (compare a b <=? 0)%Z) s.

(** Line 15: ['Részvény', 'ETF', 'Pink Sheet']; the two accented letters
    are the code unit 233. *)
Definition INSTRUMENT_TYPES_TO_SAVE : seq jsstring :=
  [:: u "R" ++ 233 :: u "szv" ++ 233 :: u "ny"; u "ETF"; u "Pink Sheet"].

(** Lines 105-108: [indexOf(...) !== -1] is membership. *)
Definition selectInstruments (instruments : seq InstrumentRow) : seq InstrumentRow :=
  [seq instrumentRow <- instruments
     | type (createInstrument instrumentRow) \in INSTRUMENT_TYPES_TO_SAVE].

(** ** The variant of unnamed/part_000

    The pure stages of the second source file. [createInstrument]
    (lines 45-53), [instrumentSortCompare] (lines 55-57) and
    [selectInstruments] (lines 112-115) are the same text as above;
    [doParseAndValidation] (lines 75-110) differs in the test on the
    length of a row, [instrumentRow.length !== 5]. *)
Module Part000.

Definition createInstrument (instrumentRow : InstrumentRow) : Instrument :=
  {| ticker := cell0 instrumentRow;
     shortName := cell1 instrumentRow;
     longName := cell2 instrumentRow;
     isinCode := cell3 instrumentRow;
     type := cell4 instrumentRow |}.

Definition instrumentSortCompare (a b : Instrument) : Z :=
  (Z.b2z (js_gt (isinCode a) (isinCode b)) - Z.b2z (js_lt (isinCode a) (isinCode b)))%Z.

Definition validateRow (instrumentRow : json) : Outcome unit :=
  if ~~ isArray (Some instrumentRow) || (len (Some instrumentRow) != 5) then
    Throw (InstrumentError "invalid instrument row" (Some instrumentRow))
  else validateFields instrumentRow.

Definition doParseAndValidation : option json -> Outcome (seq json) :=
  validateWith validateRow.

Definition selectInstruments (instruments : seq InstrumentRow) : seq InstrumentRow :=
  [seq instrumentRow <- instruments
     | type (createInstrument instrumentRow) \in INSTRUMENT_TYPES_TO_SAVE].

End Part000.

(** ** The persisted state (the blob [data.json]) *)

Record Update : Type := {
  updateType : jsstring;          (* the field [type]: 'added' or 'removed' *)
  dateTime : jsstring;
  instrument : Instrument
}.

Record DataFile : Type := {
  instruments : seq Instrument;
  updates : seq Update
}.

(** ** [diff] of fast-array-diff

    The package is a dependency, not part of the repository. Its [diff]
    aligns the two arrays along a longest common subsequence with respect
    to the comparison function and reports the elements of the old array
    outside the alignment as [removed] and those of the new array outside
    it as [added], each in the order of its array. *)

Record DiffData (T : Type) : Type := {
  removed : seq T;
  added : seq T
}.

Definition ArrayDiff : Type :=
  forall T : Type, seq T -> seq T -> (T -> T -> bool) -> DiffData T.

(** An alignment is a pair of masks selecting, in the two arrays, as many
    elements that match pairwise. *)
Definition aligned {T} (compareFunc : T -> T -> bool) (a b : seq T)
    (ma mb : bitseq) : bool :=
  [&& size ma == size a, size mb == size b
    & all2 compareFunc (mask ma a) (mask mb b)].

(** The contract of [diff]: the complement of a longest alignment. *)
Definition lcsDiff {T} (compareFunc : T -> T -> bool) (a b : seq T)
    (d : DiffData T) : Prop :=
  exists ma mb,
    [/\ aligned compareFunc a b ma mb,
        removed d = mask [seq ~~ m | m <- ma] a,
        added d = mask [seq ~~ m | m <- mb] b
      & forall ma' mb', aligned compareFunc a b ma' mb' ->
          count id ma' <= count id ma].

Definition diffContract (diff : ArrayDiff) : Prop :=
  forall T compareFunc (a b : seq T), lcsDiff compareFunc a b (diff T a b compareFunc).

(** A reference implementation of the contract, by the textbook
    recursion: matching heads are aligned; otherwise the better of
    skipping the head of either array. *)
Fixpoint lcsMasks {T} (compareFunc : T -> T -> bool) (a : seq T)
    : seq T -> bitseq * bitseq :=
  if a is x :: a' then
    fix skip (b : seq T) : bitseq * bitseq :=
      if b is y :: b' then
        if compareFunc x y then
          let: (ma, mb) := lcsMasks compareFunc a' b' in (true :: ma, true :: mb)
        else
          let: (ma1, mb1) := lcsMasks compareFunc a' b in
          let: (ma2, mb2) := skip b' in
          if count id ma2 <= count id ma1 then (false :: ma1, mb1)
          else (ma2, false :: mb2)
      else (nseq (size a) false, [::])
  else fun b => ([::], nseq (size b) false).

Definition lcs_diff : ArrayDiff := fun T a b compareFunc =>
  let: (ma, mb) := lcsMasks compareFunc a b in
  {| removed := mask [seq ~~ m | m <- ma] a;
     added := mask [seq ~~ m | m <- mb] b |}.

(** ** Order and keys of a snapshot, as the specification speaks of them *)

Definition isinCodes (s : seq Instrument) : seq jsstring := [seq isinCode i | i <- s].

(** Ascending by [isinCode], equal neighbours allowed. *)
Definition ascending (s : seq Instrument) : bool :=
  sorted (fun a b => ~~ js_lt (isinCode b) (isinCode a)) s.

(** Strictly ascending by [isinCode]. *)
Definition strictlyAscending (s : seq Instrument) : bool :=
  sorted (fun a b => js_lt (isinCode a) (isinCode b)) s.

(** ** The world of a run

    What the core reads from outside is gathered in [Env]: the response of
    the upstream server, the clock, the S3 failures, the template engine.
    What it changes is the [World]: the two objects of the bucket, the
    number of clock readings and of S3 requests made so far, and the log
    of the writes that completed and the renderings that were started.

    Only this program writes the bucket, so ['data.json'] holds a
    persisted state of the schema of section 6: the blob is represented
    by the object it serialises, and [JSON.stringify] / [JSON.parse] by
    the identity on it. *)

Definition body : Type := option json.

Record Env : Type := {
  (* request.get(DATA_URL): None when the request fails or the status is
     not 2xx *)
  request_get : option body;
  (* new Date().toISOString() at the n-th reading of the clock *)
  Date_toISOString : nat -> jsstring;
  (* new Date(s) as a number; None stands for NaN *)
  Date_parse : jsstring -> option Z;
  (* whether the n-th S3 request is rejected (for another reason than
     NotFound); a rejected request changes nothing *)
  s3_rejects : nat -> bool;
  (* ejs.renderFile on the template data; None is an error *)
  ejs_renderFile : seq Update -> option jsstring
}.

Inductive Event : Type :=
| PutDataFile (data : DataFile)
| PutHtml (html : jsstring)
| RenderFile (instrumentUpdates : seq Update).

Record World : Type := {
  data_json : option DataFile;               (* key 'data.json' *)
  instrument_updates_html : option jsstring; (* key 'instrument-updates.html' *)
  clock : nat;
  requests : nat;
  events : seq Event
}.

(** The elementary changes of the world. *)
Definition tick (n : nat) (w : World) : World :=
  {| data_json := data_json w;
     instrument_updates_html := instrument_updates_html w;
     clock := clock w + n; requests := requests w; events := events w |}.

Definition requested (w : World) : World :=
  {| data_json := data_json w;
     instrument_updates_html := instrument_updates_html w;
     clock := clock w; requests := (requests w).+1; events := events w |}.

Definition logged (e : Event) (w : World) : World :=
  {| data_json := data_json w;
     instrument_updates_html := instrument_updates_html w;
     clock := clock w; requests := requests w;
     events := rcons (events w) e |}.

Definition stored_data (data : DataFile) (w : World) : World :=
  {| data_json := Some data;
     instrument_updates_html := instrument_updates_html w;
     clock := clock w; requests := requests w; events := events w |}.

Definition stored_html (html : jsstring) (w : World) : World :=
  {| data_json := data_json w;
     instrument_updates_html := Some html;
     clock := clock w; requests := requests w; events := events w |}.

Definition M (A : Type) : Type := World -> Outcome A * World.

Definition ret {A} (a : A) : M A := fun w => (Return a, w).
Definition throw {A} (e : exn) : M A := fun w => (Throw e, w).
Definition bind {A B} (m : M A) (k : A -> M B) : M B :=
  fun w => match m w with
           | (Return a, w') => k a w'
           | (Throw e, w') => (Throw e, w')
           end.
Definition lift {A} (o : Outcome A) : M A := fun w => (o, w).

Declare Scope js_scope.
Delimit Scope js_scope with js.
Notation "x <- m ;; k" := (bind m (fun x => k))
  (at level 100, m at next level, right associativity) : js_scope.
Notation "m ;;; k" := (bind m (fun _ => k))
  (at level 100, right associativity) : js_scope.
Local Open Scope js_scope.

(** [forEach] with a body that awaits nothing but reads the clock: the
    accumulator is the array being pushed to. *)
Fixpoint foldM {A S} (body : S -> A -> M S) (acc : S) (s : seq A) : M S :=
  if s is x :: s' then (acc' <- body acc x ;; foldM body acc' s') else ret acc.

Section Run.

Variable diff : ArrayDiff.
Variable env : Env.

Definition new_Date_toISOString : M jsstring := fun w =>
  (Return (Date_toISOString env (clock w)), tick 1 w).

(** One S3 request: rejected or carried out. *)
Definition s3Request {A} (perform : World -> Outcome A * World) : M A := fun w =>
  if s3_rejects env (requests w) then (Throw StorageError, requested w)
  else perform (requested w).

(** The response of an S3 request, of which only [Body] is read. *)
Record S3Output : Type := { Body : option DataFile }.

(** [putObject] under the key 'data.json'; the body is
    [JSON.stringify(data)], represented by the object it serialises. *)
Definition putObject_data (data : DataFile) : M S3Output :=
  s3Request (fun w =>
    (Return {| Body := None |}, logged (PutDataFile data) (stored_data data w))).

Definition putObject_html (html : jsstring) : M S3Output :=
  s3Request (fun w =>
    (Return {| Body := None |}, logged (PutHtml html) (stored_html html w))).

(** Lines 59-66. *)
Definition getInstrumentsData : M body :=
  if request_get env is Some b then ret b else throw FetchError.

(** Lines 110-125: [headObject] succeeds when the object exists and fails
    with [NotFound] when it does not. *)
Definition doesDataFileExist : M bool :=
  s3Request (fun w => (Return (isSome (data_json w)), w)).

(** Lines 127-146. *)
Definition initDataFileToS3 (instruments_ : seq InstrumentRow) : M S3Output :=
  let data :=
    {| instruments :=
         Array_sort instrumentSortCompare
           [seq createInstrument instrumentRow | instrumentRow <- instruments_];
       updates := [::] |} in
  putObject_data data.

(** Lines 148-155: [getObject]; it is rejected when the key is absent. *)
Definition readDataFileFromS3 : M S3Output :=
  s3Request (fun w =>
    if data_json w is Some data then (Return {| Body := Some data |}, w)
    else (Throw StorageError, w)).

(** [dataFile.updates.push({ type, dateTime: new Date().toISOString(),
    instrument })] for each element of one side of the diff. *)
Definition pushUpdates (type_ : jsstring) (updates_ : seq Update)
    (side : seq Instrument) : M (seq Update) :=
  foldM (fun updates_ instrument_ =>
           now <- new_Date_toISOString ;;
           ret (rcons updates_
                  {| updateType := type_; dateTime := now;
                     instrument := instrument_ |}))
        updates_ side.

(** Lines 157-196. [dataFileBody] is the blob read from the bucket,
    represented by the object [JSON.parse] makes of it. *)
Definition saveDataFileToS3 (instrumentRows : seq InstrumentRow)
    (dataFileBody : DataFile) : M (seq Update) :=
  let instruments_ :=
    Array_sort instrumentSortCompare
      [seq createInstrument instrumentRow | instrumentRow <- instrumentRows] in
  let dataFile_instruments :=
    Array_sort instrumentSortCompare (instruments dataFileBody) in
  let diff_ :=
    diff dataFile_instruments instruments_
         (fun a b => isinCode a == isinCode b) in
  updates1 <- pushUpdates (u "removed") (updates dataFileBody) (removed diff_) ;;
  updates2 <- pushUpdates (u "added") updates1 (added diff_) ;;
  let dataFile := {| instruments := instruments_; updates := updates2 |} in
  putObject_data dataFile ;;;
  ret (updates dataFile).

(** Lines 198-217. *)
Definition renderHtml (instrumentUpdates : seq Update) : M jsstring := fun w =>
  if ejs_renderFile env instrumentUpdates is Some html
  then (Return html, logged (RenderFile instrumentUpdates) w)
  else (Throw RenderError, logged (RenderFile instrumentUpdates) w).

(** Lines 219-228. *)
Definition uploadInstrumentUpdatesToS3 (html : jsstring) : M S3Output :=
  putObject_html html.

(** Line 268: [(a, b) => new Date(b.dateTime) - new Date(a.dateTime)]; a
    NaN difference counts as 0 in a sort. *)
Definition byDateDescending (a b : Update) : Z :=
  if (Date_parse env (dateTime b), Date_parse env (dateTime a)) is (Some tb, Some ta)
  then (tb - ta)%Z else 0%Z.

(** Lines 231-278. The [catch] clause logs the error and throws it again. *)
Definition Handler : M string :=
  instrumentsData <- getInstrumentsData ;;
  instruments_ <- lift (doParseAndValidation instrumentsData) ;;
  let selectedInstruments := selectInstruments (typedRows instruments_) in
  dataFileExists <- doesDataFileExist ;;
  dataFile <- (if dataFileExists then readDataFileFromS3
               else initDataFileToS3 selectedInstruments) ;;
  instrumentUpdates <-
    (if Body dataFile is Some dataFileBody
     then saveDataFileToS3 selectedInstruments dataFileBody
     else ret [::]) ;;
  let instrumentUpdates := Array_sort byDateDescending instrumentUpdates in
  html <- renderHtml instrumentUpdates ;;
  uploadInstrumentUpdatesToS3 html ;;;
  ret "instrument updates generated"%string.

End Run.

(** ** A run in closed form

    The blob a successful run writes and the clock readings it takes,
    written out; [saveDataFileToS3E] below proves that this is what
    [saveDataFileToS3] computes. *)

(** The records made of one side of the diff, stamped by successive
    readings of the clock from the [n]-th on. *)
Fixpoint stamped (env : Env) (type_ : jsstring) (n : nat)
    (side : seq Instrument) : seq Update :=
  if side is i :: side' then
    {| updateType := type_; dateTime := Date_toISOString env n; instrument := i |}
    :: stamped env type_ n.+1 side'
  else [::].

Section Reconciled.

Variable diff : ArrayDiff.
Variable env : Env.

(** The sorted new snapshot, the sorted prior snapshot and their diff. *)
Definition newSnapshot (rows : seq InstrumentRow) : seq Instrument :=
  Array_sort instrumentSortCompare [seq createInstrument r | r <- rows].

Definition priorSnapshot (prior : DataFile) : seq Instrument :=
  Array_sort instrumentSortCompare (instruments prior).

Definition snapshotDiff (rows : seq InstrumentRow) (prior : DataFile) :=
  diff (priorSnapshot prior) (newSnapshot rows)
       (fun a b => isinCode a == isinCode b).

(** The blob a run writes. *)
Definition reconciled (rows : seq InstrumentRow) (prior : DataFile) (w : World)
  : DataFile :=
  {| instruments := newSnapshot rows;
     updates :=
       updates prior
       ++ stamped env (u "removed") (clock w) (removed (snapshotDiff rows prior))
       ++ stamped env (u "added")
            (clock w + size (removed (snapshotDiff rows prior)))
            (added (snapshotDiff rows prior)) |}.

Definition ticked (rows : seq InstrumentRow) (prior : DataFile) (w : World) : World :=
  tick (size (removed (snapshotDiff rows prior))
        + size (added (snapshotDiff rows prior))) w.

End Reconciled.

(** What the specification calls the records appended by a run: what the
    log holds beyond the prior log. *)
Definition appendedTo (prior : DataFile) (after : DataFile) : seq Update :=
  drop (size (updates prior)) (updates after).

(** The keys of the records of a given type. *)
Definition isinCodesOf (type_ : jsstring) (records : seq Update) : seq jsstring :=
  [seq isinCode (instrument r) | r <- records & updateType r == type_].

(** ** Sample data *)

Definition sampleRow : json :=
  JArray [:: JString (u "OTP"); JString (u "OTP Bank"); JString (u "OTP Bank Nyrt.");
             JString (u "HU0000061726"); JString (u "ETF")].

Definition sampleBody : json := JObject [:: (u "data", JArray [:: sampleRow])].

Definition sixCellRow : json :=
  JArray [:: JString (u "OTP"); JString (u "OTP Bank"); JString (u "OTP Bank Nyrt.");
             JString (u "HU0000061726"); JString (u "ETF"); JString (u "BUX")].

Definition sixCellBody : json := JObject [:: (u "data", JArray [:: sixCellRow])].

Definition otp : InstrumentRow :=
  Row (u "OTP") (u "OTP Bank") (u "OTP Bank Nyrt.") (u "HU0000061726") (u "ETF") [::].

Definition richter : InstrumentRow :=
  Row (u "RICHTER") (u "Richter") (u "Richter Gedeon Nyrt.") (u "HU0000123096")
      (u "ETF") [::].

Definition mol : InstrumentRow :=
  Row (u "MOL") (u "MOL") (u "MOL Nyrt.") (u "HU0000153937") (u "ETF") [::].

(** A clock that advances by one second at every reading, and the reading
    of the seconds back from such a stamp (a stand-in for [new Date(s)],
    enough to order these stamps). *)
Definition sampleClock (n : nat) : jsstring :=
  u "2018-06-01T06:00:0" ++ (48 + n %% 10) :: u ".000Z".

Definition sampleDate (s : jsstring) : option Z :=
  if size s == 24 then Some (Z.of_nat (nth 48 s 18 - 48)) else None.

Definition sampleEnv : Env :=
  {| request_get := Some (Some sampleBody);
     Date_toISOString := sampleClock;
     Date_parse := sampleDate;
     s3_rejects := fun _ => false;
     ejs_renderFile := fun _ => Some (u "<html></html>") |}.

(** The same with a template engine that fails. *)
Definition brokenTemplate : Env :=
  {| request_get := Some (Some sampleBody);
     Date_toISOString := sampleClock;
     Date_parse := sampleDate;
     s3_rejects := fun _ => false;
     ejs_renderFile := fun _ => None |}.

Definition oldUpdate : Update :=
  {| updateType := u "added"; dateTime := u "2018-05-01T06:00:00.000Z";
     instrument := createInstrument mol |}.

(** A prior state: two instruments, not in order, and one record. *)
Definition samplePrior : DataFile :=
  {| instruments := [:: createInstrument mol; createInstrument otp];
     updates := [:: oldUpdate] |}.

Definition sampleWorld : World :=
  {| data_json := Some samplePrior; instrument_updates_html := None;
     clock := 0; requests := 0; events := [::] |}.

(** A selection that drops MOL and brings in Richter. *)
Definition sampleRows : seq InstrumentRow := [:: richter; otp].

Definition sampleRun : Outcome (seq Update) * World :=
  saveDataFileToS3 lcs_diff sampleEnv sampleRows samplePrior sampleWorld.

(** The state the sample run writes. *)
Definition sampleAfter : DataFile :=
  {| instruments := [:: createInstrument otp; createInstrument richter];
     updates :=
       [:: oldUpdate;
           {| updateType := u "removed"; dateTime := sampleClock 0;
              instrument := createInstrument mol |};
           {| updateType := u "added"; dateTime := sampleClock 1;
              instrument := createInstrument richter |}] |}.

(** The same selection once more, against what the sample run wrote. *)
Definition sampleRerun : Outcome (seq Update) * World :=
  saveDataFileToS3 lcs_diff brokenTemplate sampleRows sampleAfter sampleRun.2.

(** A selection in which one instrument comes twice. *)
Definition doubledRows : seq InstrumentRow := [:: otp; richter; otp].

Definition doubledRun : Outcome (seq Update) * World :=
  saveDataFileToS3 lcs_diff sampleEnv doubledRows samplePrior sampleWorld.

(** Another world at the same reading of the clock. *)
Definition otherWorld : World :=
  {| data_json := None; instrument_updates_html := Some (u "<html></html>");
     clock := 0; requests := 7; events := [:: RenderFile [::]] |}.

(** A whole invocation whose template engine fails. *)
Definition brokenInvocation : Outcome string * World :=
  Handler lcs_diff brokenTemplate sampleWorld.

(** The scenarios of section 8 of the specification. *)
Definition emptyWorld : World :=
  {| data_json := None; instrument_updates_html := None;
     clock := 0; requests := 0; events := [::] |}.

Definition shortRow : json := JArray [:: JString (u "AB"); JString (u "X")].

Definition shortRowBody : json := JObject [:: (u "data", JArray [:: shortRow])].

Definition digitsFirstBody : json :=
  JObject [:: (u "data",
     JArray [:: JArray [:: JString (u "OTP"); JString (u "OTP Bank");
                           JString (u "OTP Bank Nyrt.");
                           JString (u "12AB34567890"); JString (u "ETF")]])].

Definition withBody (b : json) : Env :=
  {| request_get := Some (Some b);
     Date_toISOString := sampleClock;
     Date_parse := sampleDate;
     s3_rejects := fun _ => false;
     ejs_renderFile := fun _ => Some (u "<html></html>") |}.

(** ** Records of the log as an equality type *)

Definition tupleOfUpdate (r : Update) := (updateType r, dateTime r, instrument r).
Definition updateOfTuple (t : jsstring * jsstring * Instrument) :=
  let: (a, b, c) := t in {| updateType := a; dateTime := b; instrument := c |}.
Definition tupleOfUpdateK : cancel tupleOfUpdate updateOfTuple :=
  fun r => let: Build_Update _ _ _ := r in erefl.
HB.instance Definition _ := Equality.copy Update (can_type tupleOfUpdateK).

(** ** The invocation of unnamed/part_000

    The effectful functions of the second source file, written with
    promises instead of [await]: a rejected promise, or an exception thrown
    in a [then] callback, skips the remaining [then] steps down to the
    final [catch], which hands the error to the callback of the
    invocation. They use the stages of [Part000]. *)
Module Part000Run.

Section Run.

Variable diff : ArrayDiff.
Variable env : Env.

(** The status of the upstream answer. [request_get env] is the answer as
    request-promise hands it to instrument-updates-generator.js: [None] on
    a request error and on a status outside 2xx. part_000 uses the plain
    request package and reads [res.statusCode] itself. *)
Variable statusCode : nat.

(** Lines 59-73: rejected on a request error ([err]) and on every status
    other than 200, those of 2xx included. *)
Definition getInstrumentsData : M body :=
  if request_get env is Some b then
    if statusCode != 200 then throw FetchError else ret b
  else throw FetchError.

(** Lines 117-134. *)
Definition doesDataFileExist : M bool :=
  s3Request env (fun w => (Return (isSome (data_json w)), w)).

(** Lines 136-155. *)
Definition initDataFileToS3 (instruments_ : seq InstrumentRow) : M S3Output :=
  let data :=
    {| instruments :=
         Array_sort Part000.instrumentSortCompare
           [seq Part000.createInstrument instrumentRow
              | instrumentRow <- instruments_];
       updates := [::] |} in
  putObject_data env data.

(** Lines 157-164. *)
Definition readDataFileFromS3 : M S3Output :=
  s3Request env (fun w =>
    if data_json w is Some data then (Return {| Body := Some data |}, w)
    else (Throw StorageError, w)).

(** Lines 166-207. *)
Definition saveDataFileToS3 (instrumentRows : seq InstrumentRow)
    (dataFileBody : DataFile) : M (seq Update) :=
  let instruments_ :=
    Array_sort Part000.instrumentSortCompare
      [seq Part000.createInstrument instrumentRow
         | instrumentRow <- instrumentRows] in
  let dataFile_instruments :=
    Array_sort Part000.instrumentSortCompare (instruments dataFileBody) in
  let diff_ :=
    diff dataFile_instruments instruments_
         (fun a b => isinCode a == isinCode b) in
  updates1 <- pushUpdates env (u "removed") (updates dataFileBody) (removed diff_) ;;
  updates2 <- pushUpdates env (u "added") updates1 (added diff_) ;;
  let dataFile := {| instruments := instruments_; updates := updates2 |} in
  putObject_data env dataFile ;;;
  ret (updates dataFile).

(** Lines 242-288: the chain of [then] steps. *)
Definition Handler : M string :=
  res <-
    (instruments_ <-
       (instruments_ <-
          (instrumentsData <- getInstrumentsData ;;
           lift (Part000.doParseAndValidation instrumentsData)) ;;
        ret (Part000.selectInstruments (typedRows instruments_))) ;;
     res <- (dataFileExists <- doesDataFileExist ;;
             if dataFileExists then readDataFileFromS3
             else initDataFileToS3 instruments_) ;;
     ret (instruments_, Body res)) ;;
  instrumentUpdates <-
    (if res.2 is Some dataFile then saveDataFileToS3 res.1 dataFile
     else ret [::]) ;;
  (let instrumentUpdates := Array_sort (byDateDescending env) instrumentUpdates in
   html <- renderHtml env instrumentUpdates ;;
   uploadInstrumentUpdatesToS3 env html) ;;;
  ret "instrument updates generated"%string.

End Run.

End Part000Run.

(** ** Further notions used to state properties of the code *)

(** The messages of the five field checks (lines 86-98), by position. *)
Definition fieldMessage (i : nat) : string :=
  nth ""%string
    [:: "invalid instrument ticker"%string; "invalid instrument short name"%string;
        "invalid instrument long name"%string; "invalid instrument ISIN code"%string;
        "invalid instrument type"%string] i.

(** An instrument as the validator and the selector let it through. *)
Definition tracked (i : Instrument) : bool :=
  [&& (1 <= size (ticker i)) && (size (ticker i) <= 12),
      (2 <= size (shortName i)) && (size (shortName i) <= 24),
      (2 <= size (longName i)) && (size (longName i) <= 64),
      ISIN_CODE_REGEX (isinCode i)
    & type i \in INSTRUMENT_TYPES_TO_SAVE].

(** What a run has added to the log of events. *)
Definition newEvents (w w' : World) : seq Event :=
  drop (size (events w)) (events w').

(** The time of a record, when its stamp is a date. *)
Definition timeOf (env : Env) (r : Update) : option Z := Date_parse env (dateTime r).

(** Descending by time. *)
Definition descending (env : Env) (s : seq Update) : bool :=
  sorted (fun a b =>
            if (timeOf env a, timeOf env b) is (Some ta, Some tb)
            then (tb <=? ta)%Z else false) s.

(** ** An invocation in closed form

    [HandlerE] below proves that this is what [Handler] computes. *)

Section Closed.

Variable diff : ArrayDiff.
Variable env : Env.

(** From the sort of the list on: rendering, then the upload. *)
Definition present (instrumentUpdates : seq Update) (w : World)
  : Outcome string * World :=
  let sortedUpdates := Array_sort (byDateDescending env) instrumentUpdates in
  let w1 := logged (RenderFile sortedUpdates) w in
  if ejs_renderFile env sortedUpdates is Some html then
    if s3_rejects env (requests w1) then (Throw StorageError, requested w1)
    else (Return "instrument updates generated"%string,
          logged (PutHtml html) (stored_html html (requested w1)))
  else (Throw RenderError, w1).

Definition HandlerClosed (w : World) : Outcome string * World :=
  if request_get env is Some b then
    match doParseAndValidation b with
    | Throw e => (Throw e, w)
    | Return rows =>
      let selected := selectInstruments (typedRows rows) in
      let w2 := requested (requested w) in
      if s3_rejects env (requests w) then (Throw StorageError, requested w)
      else if s3_rejects env (requests w).+1 then (Throw StorageError, w2)
      else if data_json w is Some prior then
        let after := reconciled diff env selected prior w2 in
        if s3_rejects env (requests w).+2
        then (Throw StorageError, requested (ticked diff selected prior w2))
        else present (updates after)
               (logged (PutDataFile after)
                  (stored_data after (requested (ticked diff selected prior w2))))
      else
        let first := {| instruments := newSnapshot selected; updates := [::] |} in
        present [::] (logged (PutDataFile first) (stored_data first w2))
    end
  else (Throw FetchError, w).

End Closed.

(** ** Further sample data *)

Definition sampleCells : seq json :=
  [:: JString (u "OTP"); JString (u "OTP Bank"); JString (u "OTP Bank Nyrt.");
      JString (u "HU0000061726"); JString (u "ETF")].

(** A row whose short name has one code unit. *)
Definition shortNameRow : json :=
  JArray [:: JString (u "OTP"); JString (u "X"); JString (u "OTP Bank Nyrt.");
             JString (u "HU0000061726"); JString (u "ETF")].


(** The instruments of [samplePrior] under other names and another type. *)
Definition renamedRows : seq InstrumentRow :=
  [:: otp;
      Row (u "MOLB") (u "MOL Group") (u "MOL Magyar Olaj") (u "HU0000153937")
          (u "Pink Sheet") [::]].

Definition renamedRun : Outcome (seq Update) * World :=
  saveDataFileToS3 lcs_diff sampleEnv renamedRows samplePrior sampleWorld.

Definition emptyRun : Outcome (seq Update) * World :=
  saveDataFileToS3 lcs_diff sampleEnv [::] samplePrior sampleWorld.

Definition emptyPrior : DataFile := {| instruments := [::]; updates := [:: oldUpdate] |}.

Definition firstRun : Outcome (seq Update) * World :=
  saveDataFileToS3 lcs_diff sampleEnv sampleRows emptyPrior sampleWorld.


Definition bootstrapWrite : Outcome S3Output * World :=
  initDataFileToS3 sampleEnv sampleRows emptyWorld.

Definition afterBootstrap : Outcome (seq Update) * World :=
  saveDataFileToS3 lcs_diff sampleEnv sampleRows
    {| instruments := [:: createInstrument otp; createInstrument richter];
       updates := [::] |} bootstrapWrite.2.

Definition sampleInvocation : Outcome string * World :=
  Handler lcs_diff sampleEnv sampleWorld.


(** What a run returned, the empty list if it threw. *)
Definition returned {A} (run : Outcome (seq A) * World) : seq A :=
  if run.1 is Return s then s else [::].

(** What the sample invocation writes under ['data.json']: the upstream
    body holds OTP alone, so MOL is recorded as removed. *)
Definition invocationAfter : DataFile :=
  {| instruments := [:: createInstrument otp];
     updates :=
       [:: oldUpdate;
           {| updateType := u "removed"; dateTime := sampleClock 0;
              instrument := createInstrument mol |}] |}.


(** The same bucket three readings of the clock later, and what an
    invocation writes there. *)
Definition laterWorld : World :=
  {| data_json := Some samplePrior; instrument_updates_html := None;
     clock := 3; requests := 0; events := [::] |}.

Definition laterInvocation : Outcome string * World :=
  Handler lcs_diff sampleEnv laterWorld.

Definition laterRecord : Update :=
  {| updateType := u "removed"; dateTime := sampleClock 3;
     instrument := createInstrument mol |}.

Definition laterAfter : DataFile :=
  {| instruments := [:: createInstrument otp];
     updates := [:: oldUpdate; laterRecord] |}.

(** The world in which the invocation whose template engine fails ends:
    three requests made (head, get, put), one reading of the clock, the
    reconciled state written and one rendering started. *)
Definition brokenWorld : World :=
  {| data_json := Some invocationAfter; instrument_updates_html := None;
     clock := 1; requests := 3;
     events := [:: PutDataFile invocationAfter;
                   RenderFile (updates invocationAfter)] |}.

(** * Properties *)

(** ** The validator against the specification *)

Lemma repeatE class n s :
  repeat class n s =
  if (n <= size s) && all class (take n s) then Some (drop n s) else None.
Proof.
elim: n s => [|n IH] [|c s] //=.
by rewrite ltnS IH; case: (class c); rewrite //= andbF.
Qed.

Local Arguments repeat : simpl never.

Lemma ISIN_CODE_REGEX_pattern s :
  ISIN_CODE_REGEX s = isinPattern (Some (JString s)).
Proof.
rewrite /ISIN_CODE_REGEX /isinPattern repeatE.
have [s12|] := boolP (size s == 12); last first.
  move=> ns12 /=; case: ifP => //= _; rewrite repeatE.
  case: ifP => //= _; rewrite repeatE.
  case: ifP => //= /andP [+ _] => s11; apply: negbTE.
  move: ns12 s11; rewrite /nilp !size_drop.
  by move: (size s) => [|[|[|[|[|[|[|[|[|[|[|[|[|n]]]]]]]]]]]]].
rewrite (eqP s12) /=; case: (all upper _) => //=.
rewrite repeatE size_drop (eqP s12) /=; case: (all _ _) => //=.
rewrite repeatE drop_drop size_drop (eqP s12) /=.
rewrite take_oversize ?size_drop ?(eqP s12) //.
case: (all digit _) => //=.
by rewrite /nilp !size_drop (eqP s12).
Qed.

Lemma between_test lo hi v :
  ~~ isString v || (len v < lo) || (hi < len v) = ~~ between lo hi v.
Proof. by case: v => [[]|] //= s; rewrite negb_and -!ltnNge. Qed.

Lemma type_test v : ~~ isString v || (24 < len v) = ~~ between 0 24 v.
Proof. by case: v => [[]|] //= s; rewrite -ltnNge. Qed.

Lemma isin_test v :
  ~~ isString v || ~~ matches v ISIN_CODE_REGEX = ~~ isinPattern v.
Proof. by case: v => [[]|] //= s; rewrite ISIN_CODE_REGEX_pattern. Qed.

Lemma validateFieldsP row :
  if fieldsOk row then validateFields row = Return tt
  else exists msg i,
    [/\ i < 5, ~~ constraint i (cell row i)
      & validateFields row = Throw (InstrumentError msg (cell row i))].
Proof.
rewrite /validateFields /fieldsOk /= /constraint /=.
rewrite !between_test type_test isin_test andbT.
case E0: (between 1 12 _) => /=; last first.
  by eexists; exists 0; split; rewrite /constraint //= E0.
case E1: (between 2 24 _) => /=; last first.
  by eexists; exists 1; split; rewrite /constraint //= E1.
case E2: (between 2 64 _) => /=; last first.
  by eexists; exists 2; split; rewrite /constraint //= E2.
case E3: (isinPattern _) => /=; last first.
  by eexists; exists 3; split; rewrite /constraint //= E3.
case E4: (between 0 24 _) => //=.
by eexists; exists 4; split; rewrite /constraint //= E4.
Qed.

Lemma rowShape_test row :
  ~~ isArray (Some row) || (len (Some row) < 5) || (7 < len (Some row))
  = ~~ rowShape row.
Proof. by rewrite /rowShape !negb_and -!ltnNge orbA. Qed.

Lemma validateRowP row :
  if rowOk row then validateRow row = Return tt
  else exists msg e,
    validateRow row = Throw (InstrumentError msg e) /\ rowOffence row e.
Proof.
rewrite /validateRow /rowOk rowShape_test.
case shape: (rowShape row) => /=; last first.
  by eexists; eexists; split=> //; left; rewrite shape.
case: ifP (validateFieldsP row) => // _ [msg [i [i5 bad ->]]].
by exists msg, (cell row i); split=> //; right; split=> //; exists i.
Qed.

Lemma forEach_validateRowP rows :
  if all rowOk rows then forEach rows validateRow = Return tt
  else exists before row after msg e,
    [/\ rows = before ++ row :: after, all rowOk before, ~~ rowOk row,
        forEach rows validateRow = Throw (InstrumentError msg e)
      & rowOffence row e].
Proof.
elim: rows => [|row rows IH] //=.
have := validateRowP row; case ok: (rowOk row) => /=.
  move=> -> /=.
  case: ifP IH => // _ [before [row' [after [msg [e [-> okb bad -> off]]]]]].
  by exists (row :: before), row', after, msg, e; split=> //=; rewrite ok.
move=> [msg [e [-> off]]] /=.
by exists [::], row, rows, msg, e; split=> //; rewrite ok.
Qed.

Lemma dot_data_dataField parsedBody :
  parsedBody <> JNull -> dot_data parsedBody = Return (dataField parsedBody).
Proof. by case: parsedBody. Qed.

Lemma dataShape_test data : ~~ isArray data || (len data == 0) = ~~ dataShape data.
Proof. by rewrite /dataShape negb_and -leqNgt leqn0. Qed.

Lemma rowsOf_test data :
  (if data is Some (JArray rows) then rows else [::]) = rowsOf data.
Proof. by []. Qed.

(** The outcome of the validator on a document other than [null], in
    terms of the specification's predicates. *)
Lemma doParseAndValidationP parsedBody :
  parsedBody <> JNull ->
  if bodyOk parsedBody
  then doParseAndValidation (Some parsedBody) = Return (rowsOf (dataField parsedBody))
  else exists msg e,
    doParseAndValidation (Some parsedBody) = Throw (InstrumentError msg e)
    /\ offending parsedBody e.
Proof.
move=> nn; rewrite /doParseAndValidation /validateWith dot_data_dataField //=.
rewrite dataShape_test rowsOf_test /bodyOk.
case shape: (dataShape _) => /=; last first.
  by eexists; eexists; split=> //; left; rewrite shape.
case: ifP (forEach_validateRowP (rowsOf (dataField parsedBody))) => [_ -> //|_].
move=> [before [row [after [msg [e [rows okb bad -> off]]]]]] /=.
exists msg, e; split=> //; right; split=> //.
by exists before, row, after.
Qed.

(** C7, as amended: for every body that parses as JSON to a value other
    than [null], [doParseAndValidation] throws an [InstrumentError] (the
    specification's ValidationError) if and only if the [data] field is
    missing, empty or not an array, or some row is not an array of 5 to 7
    cells, or some field at positions 0-4 fails its constraint; the error
    carries the offending element; otherwise the original rows are
    returned unchanged. *)
Theorem doParseAndValidation_raises_iff parsedBody :
  parsedBody <> JNull ->
  [/\ (exists msg e,
         doParseAndValidation (Some parsedBody) = Throw (InstrumentError msg e))
      <-> ~~ bodyOk parsedBody,
      forall msg e,
        doParseAndValidation (Some parsedBody) = Throw (InstrumentError msg e) ->
        offending parsedBody e
    & bodyOk parsedBody ->
      doParseAndValidation (Some parsedBody) = Return (rowsOf (dataField parsedBody))].
Proof.
move=> /doParseAndValidationP; case ok: (bodyOk parsedBody).
  by move=> ->; split=> //; split=> // [[msg [e]]].
move=> [msg [e [-> off]]]; split=> //; first by split=> // _; exists msg, e.
by move=> msg' e' [_ <-].
Qed.

Lemma doParseAndValidation_raises_iff_witness :
  sampleBody <> JNull /\
  doParseAndValidation (Some sampleBody) = Return [:: sampleRow].
Proof.
have nn : sampleBody <> JNull by [].
split; first exact: nn.
by case: (doParseAndValidation_raises_iff nn) => _ _; apply.
Defined.

(** C7, counterexample: the body [null] parses as JSON and has no [data]
    field, yet the validator throws a [TypeError], not an
    [InstrumentError]. *)
Lemma doParseAndValidation_null :
  ~ ((exists msg e,
        doParseAndValidation (Some JNull) = Throw (InstrumentError msg e))
     <-> ~~ bodyOk JNull).
Proof. by move=> [_ /(_ isT) [msg [e]]]. Qed.

Example doParseAndValidation_null_outcome :
  doParseAndValidation (Some JNull) = Throw TypeError.
Proof. by []. Qed.

(** ** The two variants of the validator *)

Lemma validateRow_variants row :
  ~~ longRow row -> Part000.validateRow row = validateRow row.
Proof.
rewrite /longRow /Part000.validateRow /validateRow.
case: row => // elements; rewrite /= !inE.
by move: (size elements) => [|[|[|[|[|[|[|[|n]]]]]]]].
Qed.

Lemma validateRow_refines row :
  Part000.validateRow row = Return tt -> validateRow row = Return tt.
Proof.
rewrite /Part000.validateRow /validateRow.
case: row => // elements /=.
by move: (size elements) => [|[|[|[|[|[|[|[|n]]]]]]]].
Qed.

Lemma forEach_variants rows :
  all (fun row => ~~ longRow row) rows ->
  forEach rows Part000.validateRow = forEach rows validateRow.
Proof.
by elim: rows => [|row rows IH] //= /andP [/validateRow_variants -> /IH ->].
Qed.

Lemma forEach_refines rows :
  forEach rows Part000.validateRow = Return tt ->
  forEach rows validateRow = Return tt.
Proof.
elim: rows => [|row rows IH] //=.
case E: (Part000.validateRow row) => [[]|] //=.
by rewrite (validateRow_refines E).
Qed.

Lemma doParseAndValidation_refines (b : body) rows :
  Part000.doParseAndValidation b = Return rows ->
  doParseAndValidation b = Return rows.
Proof.
case: b => [parsedBody|] //=.
rewrite /Part000.doParseAndValidation /doParseAndValidation /validateWith.
case dd: (dot_data parsedBody) => [data|e] //=.
rewrite rowsOf_test; case: ifP => // _.
by case E: (forEach _ _) => [[]|] //= [<-]; rewrite (forEach_refines E).
Qed.

Lemma doParseAndValidation_short (b : body) :
  all (fun row => ~~ longRow row) (bodyRows b) ->
  Part000.doParseAndValidation b = doParseAndValidation b.
Proof.
case: b => [parsedBody|] //=.
rewrite /Part000.doParseAndValidation /doParseAndValidation /validateWith.
case dd: (dot_data parsedBody) => [data|e] //=.
have -> : rowsOf (dataField parsedBody) = rowsOf data.
  by case: parsedBody dd => [|?|?|?|?|props] //= [<-].
by rewrite rowsOf_test; case: ifP => // _ /forEach_variants ->.
Qed.

(** C9, as amended: the stages [createInstrument],
    [instrumentSortCompare] and [selectInstruments] of the two variants
    agree on every input; the two variants of [doParseAndValidation] give
    the same outcome on every body none of whose rows is an array of six
    or seven cells, and every body accepted by the variant of part_000 is
    accepted, with the same rows, by the variant of
    instrument-updates-generator.js. *)
Theorem variants_agree :
  [/\ forall r, Part000.createInstrument r = createInstrument r,
      forall a b, Part000.instrumentSortCompare a b = instrumentSortCompare a b,
      forall rows, Part000.selectInstruments rows = selectInstruments rows,
      forall b : body,
        all (fun row => ~~ longRow row) (bodyRows b) ->
        Part000.doParseAndValidation b = doParseAndValidation b
    & forall (b : body) rows,
        Part000.doParseAndValidation b = Return rows ->
        doParseAndValidation b = Return rows].
Proof.
split=> //; first exact: doParseAndValidation_short.
exact: doParseAndValidation_refines.
Qed.

Lemma variants_agree_witness :
  [/\ all (fun row => ~~ longRow row) (bodyRows (Some sampleBody)),
      Part000.doParseAndValidation (Some sampleBody)
      = doParseAndValidation (Some sampleBody),
      Part000.doParseAndValidation (Some sampleBody) = Return [:: sampleRow]
    & doParseAndValidation (Some sampleBody) = Return [:: sampleRow]].
Proof.
have [_ _ _ agree refines] := variants_agree.
have short : all (fun row => ~~ longRow row) (bodyRows (Some sampleBody)) by [].
have accepted : Part000.doParseAndValidation (Some sampleBody) = Return [:: sampleRow].
  by [].
split; [exact: short | exact: agree short | exact: accepted | exact: refines accepted].
Defined.

(** C9, counterexample: a body whose only row has six cells is accepted by
    the validator of instrument-updates-generator.js and rejected by the
    validator of part_000. *)
Lemma variants_differ :
  ~ ((exists rows, doParseAndValidation (Some sixCellBody) = Return rows) <->
     (exists rows, Part000.doParseAndValidation (Some sixCellBody) = Return rows)).
Proof. by move=> [/(_ (ex_intro _ [:: sixCellRow] erefl)) [rows]]. Qed.

Example sixCellBody_outcomes :
  doParseAndValidation (Some sixCellBody) = Return [:: sixCellRow] /\
  Part000.doParseAndValidation (Some sixCellBody)
  = Throw (InstrumentError "invalid instrument row" (Some sixCellRow)).
Proof. by []. Qed.

(** ** The order of JavaScript strings *)

Lemma js_lt_irreflexive : irreflexive js_lt.
Proof. by elim=> [|x a IH] //=; rewrite ltnn eqxx IH. Qed.

Lemma js_lt_trans : transitive js_lt.
Proof.
move=> b a c; elim: a b c => [|x a IH] [|y b] [|z c] //=.
case/orP=> [xy|/andP [/eqP -> ab]]; case/orP=> [yz|/andP [/eqP <- bc]].
- by rewrite (ltn_trans xy yz).
- by rewrite xy.
- by rewrite yz.
- by rewrite eqxx (IH _ _ ab bc) orbT.
Qed.

Lemma js_lt_total a b : [|| a == b, js_lt a b | js_lt b a].
Proof.
elim: a b => [|x a IH] [|y b] //=; rewrite eqseq_cons [y == x]eq_sym.
by case: (ltngtP x y) => /=.
Qed.

Lemma js_lt_asym a b : js_lt a b -> ~~ js_lt b a.
Proof.
move=> ab; apply/negP => ba.
by have := js_lt_trans ab ba; rewrite js_lt_irreflexive.
Qed.

(** ** The comparator and the sort *)

(** [compare(a, b) <= 0] says that the key of [a] is not above that of [b]. *)
Lemma instrumentSortCompare_le a b :
  (instrumentSortCompare a b <=? 0)%Z = ~~ js_lt (isinCode b) (isinCode a).
Proof.
rewrite /instrumentSortCompare /js_gt.
case ba: (js_lt (isinCode b) (isinCode a)); last by case: (js_lt _ _).
by rewrite (negbTE (js_lt_asym ba)).
Qed.

Lemma isinLe_total : total (fun a b => (instrumentSortCompare a b <=? 0)%Z).
Proof.
move=> a b; rewrite !instrumentSortCompare_le.
by case ba: (js_lt (isinCode b) _); rewrite //= js_lt_asym.
Qed.

Lemma isinLe_trans : transitive (fun a b => (instrumentSortCompare a b <=? 0)%Z).
Proof.
move=> b a c; rewrite !instrumentSortCompare_le => ab bc.
apply/negP => ca; case/or3P: (js_lt_total (isinCode a) (isinCode b)).
- by move/eqP=> e; rewrite -e ca in bc.
- by move=> lt_ab; rewrite (js_lt_trans ca lt_ab) in bc.
- by move=> lt_ba; rewrite lt_ba in ab.
Qed.

Lemma Array_sort_ascending s : ascending (Array_sort instrumentSortCompare s).
Proof.
rewrite /ascending /Array_sort.
rewrite -(eq_sorted instrumentSortCompare_le).
exact: sort_sorted isinLe_total s.
Qed.

Lemma Array_sort_perm s : perm_eq (Array_sort instrumentSortCompare s) s.
Proof. by rewrite /Array_sort perm_sort. Qed.

Lemma Array_sort_sorted s :
  ascending s -> Array_sort instrumentSortCompare s = s.
Proof.
rewrite /ascending -(eq_sorted instrumentSortCompare_le).
exact: sorted_sort isinLe_trans s.
Qed.

Lemma Array_sort_idem s :
  Array_sort instrumentSortCompare (Array_sort instrumentSortCompare s)
  = Array_sort instrumentSortCompare s.
Proof. exact/Array_sort_sorted/Array_sort_ascending. Qed.

Lemma isinCodes_sort s :
  perm_eq (isinCodes (Array_sort instrumentSortCompare s)) (isinCodes s).
Proof. exact/perm_map/Array_sort_perm. Qed.

(** Ascending with pairwise distinct keys is strictly ascending. *)
Lemma ascending_uniq s :
  ascending s -> uniq (isinCodes s) -> strictlyAscending s.
Proof.
rewrite /ascending /strictlyAscending /isinCodes.
case: s => [|a s] //=; elim: s a => [|b s IH] a //= /andP [ab asc].
rewrite inE negb_or -andbA => /and3P [nab _ un].
rewrite (IH _ asc un) andbT.
by case/or3P: (js_lt_total (isinCode a) (isinCode b)) ab nab => [->|->|->].
Qed.

Lemma strictlyAscending_uniq s : strictlyAscending s -> uniq (isinCodes s).
Proof.
rewrite /strictlyAscending /isinCodes => asc.
apply: (sorted_uniq js_lt_trans js_lt_irreflexive).
by rewrite sorted_map.
Qed.

Lemma Array_sort_strict s :
  uniq (isinCodes s) -> strictlyAscending (Array_sort instrumentSortCompare s).
Proof.
move=> un; apply: ascending_uniq (Array_sort_ascending s) _.
by rewrite (perm_uniq (isinCodes_sort s)).
Qed.

(** ** Consequences of the contract of [diff] *)

Section DiffFacts.

Variables (T : Type) (K : eqType) (key : T -> K).

Let sameKey (x y : T) : bool := key x == key y.

Lemma all2_sameKey (s t : seq T) :
  all2 sameKey s t = ([seq key x | x <- s] == [seq key x | x <- t]).
Proof. by elim: s t => [|x s IH] [|y t] //=; rewrite eqseq_cons IH. Qed.

Lemma mask_all_true (m : bitseq) : count id m = size m -> [seq ~~ b | b <- m] = nseq (size m) false.
Proof.
elim: m => [|[] m IH] //=.
  by rewrite add1n => /eqP; rewrite eqSS => /eqP /IH ->.
by rewrite add0n => E; have := count_size id m; rewrite E ltnn.
Qed.

(** Two arrays with the same keys, position by position, differ in
    nothing. *)
Lemma lcsDiff_same (a b : seq T) (d : DiffData T) :
  [seq key x | x <- a] = [seq key x | x <- b] ->
  lcsDiff sameKey a b d -> removed d = [::] /\ added d = [::].
Proof.
move=> eqk [ma [mb [/and3P [/eqP sa /eqP sb al] -> -> best]]].
have sab : size a = size b by rewrite -(size_map key a) eqk size_map.
have full : aligned sameKey a b (nseq (size a) true) (nseq (size b) true).
  rewrite /aligned !size_nseq !eqxx /= !mask_true // all2_sameKey.
  exact/eqP.
have ca : count id ma = size ma.
  apply/eqP; rewrite eqn_leq count_size /= sa.
  by have := best _ _ full; rewrite count_nseq mul1n.
have cb : count id mb = size mb.
  have := congr1 size (eqP (etrans (esym (all2_sameKey _ _)) al)).
  by rewrite !size_map !size_mask // ca sa sb => <-.
by rewrite (mask_all_true ca) (mask_all_true cb) !mask_false.
Qed.

Lemma mask_filter_uniq (p : pred K) (s : seq K) (m : bitseq) :
  uniq s -> size m = size s -> mask m s = filter p s -> m = [seq p x | x <- s].
Proof.
elim: s m => [|x s IH] [|b m] //= /andP [nx un] [sz].
case: b; case px: (p x) => /=.
- by case=> /(IH _ un sz) ->.
- move=> E; have : x \in filter p s by rewrite -E mem_head.
  by rewrite mem_filter (negbTE nx) andbF.
- move=> E; have : x \in mask m s by rewrite E mem_head.
  by move/mem_mask; rewrite (negbTE nx).
- by move/(IH _ un sz) ->.
Qed.

Variable lt : rel K.
Hypothesis lt_trans : transitive lt.
Hypothesis lt_irr : irreflexive lt.

(** One side of the alignment: a longest alignment of two strictly
    ascending key sequences keeps exactly the common keys. *)
Lemma aligned_sorted_side (ka kb : seq K) (ma mb : bitseq) :
  sorted lt ka -> sorted lt kb ->
  size ma = size ka -> mask ma ka = mask mb kb ->
  size [seq k <- ka | k \in kb] <= count id ma ->
  ma = [seq k \in kb | k <- ka].
Proof.
move=> sa sb sz E le.
have ua : uniq ka := sorted_uniq lt_trans lt_irr sa.
apply: (mask_filter_uniq ua sz).
have sub : subseq (mask ma ka) [seq k <- ka | k \in kb].
  rewrite subseq_filter mask_subseq andbT.
  by apply/allP => k; rewrite E => /mem_mask.
apply/eqP; rewrite -(size_subseq_leqif sub).
by rewrite eqn_leq (size_subseq sub) size_mask.
Qed.

(** On arrays strictly ascending by key, [removed] is what of the old
    array is absent from the new one and [added] what of the new array is
    absent from the old one. *)
Lemma lcsDiff_sorted (a b : seq T) (d : DiffData T) :
  sorted lt [seq key x | x <- a] -> sorted lt [seq key x | x <- b] ->
  lcsDiff sameKey a b d ->
  removed d = [seq x <- a | key x \notin [seq key y | y <- b]] /\
  added d = [seq y <- b | key y \notin [seq key x | x <- a]].
Proof.
set ka := map key a; set kb := map key b => sa sb.
move=> [ma [mb [/and3P [/eqP sza /eqP szb al] -> -> best]]].
have E : mask ma ka = mask mb kb.
  by rewrite -!map_mask; apply/eqP; rewrite -all2_sameKey.
have common : [seq k <- ka | k \in kb] = [seq k <- kb | k \in ka].
  apply: (irr_sorted_eq lt_trans lt_irr); try exact: sorted_filter.
  by move=> k; rewrite !mem_filter andbC.
have full : aligned sameKey a b [seq k \in kb | k <- ka] [seq k \in ka | k <- kb].
  rewrite /aligned !size_map !eqxx /= all2_sameKey !map_mask -!filter_mask.
  exact/eqP.
have le : size [seq k <- ka | k \in kb] <= count id ma.
  by have := best _ _ full; rewrite size_filter count_map.
have -> : ma = [seq k \in kb | k <- ka].
  by apply: (aligned_sorted_side sa sb _ E le); rewrite /ka size_map.
have -> : mb = [seq k \in ka | k <- kb].
  apply: (aligned_sorted_side sb sa _ (esym E)); rewrite /kb ?size_map // -/kb -common.
  have <- : size (mask ma ka) = count id mb.
    by rewrite E size_mask // /kb size_map.
  by rewrite size_mask // /ka size_map.
by rewrite -!map_comp -!filter_mask.
Qed.

End DiffFacts.

(** ** The reference implementation meets the contract *)

Section LcsMasks.

Variables (T : Type) (compareFunc : T -> T -> bool).

Local Notation aligned := (aligned compareFunc).
Local Notation lcsMasks := (lcsMasks compareFunc).

Lemma lcsMasks_cons x a y b :
  lcsMasks (x :: a) (y :: b) =
  if compareFunc x y then
    let: (ma, mb) := lcsMasks a b in (true :: ma, true :: mb)
  else
    let: (ma1, mb1) := lcsMasks a (y :: b) in
    let: (ma2, mb2) := lcsMasks (x :: a) b in
    if count id ma2 <= count id ma1 then (false :: ma1, mb1)
    else (ma2, false :: mb2).
Proof. by []. Qed.

Lemma lcsMasks_nil x a : lcsMasks (x :: a) [::] = (nseq (size a).+1 false, [::]).
Proof. by []. Qed.

Lemma lcsMasks_aligned a b :
  aligned a b (lcsMasks a b).1 (lcsMasks a b).2.
Proof.
rewrite /aligned.
elim: a b => [|x a IHa] b; first by rewrite /= size_nseq eqxx mask_false.
elim: b => [|y b IHb]; first by rewrite lcsMasks_nil /= size_nseq eqxx mask_false.
rewrite lcsMasks_cons; case xy: (compareFunc x y).
  by case: (lcsMasks a b) (IHa b) => ma mb /=; rewrite !eqSS xy.
move: (IHa (y :: b)) IHb.
case: (lcsMasks a (y :: b)) => ma1 mb1; case: (lcsMasks (x :: a) b) => ma2 mb2.
by case: ifP => _ /=; rewrite ?eqSS.
Qed.

(** Unselecting the first selected element. *)
Lemma mask_behead (m : bitseq) (s : seq T) :
  size m = size s ->
  exists m', [/\ size m' = size m, mask m' s = behead (mask m s)
               & count id m <= (count id m').+1].
Proof.
elim: m s => [|b m IH] [|x s] //=; first by exists [::].
case=> sz; case: b => /=; first by exists (false :: m); rewrite /= sz.
have [m' [sz' E le]] := IH _ sz.
by exists (false :: m'); rewrite /= sz'.
Qed.

Lemma aligned_dropL x a b ma mb :
  aligned (x :: a) b ma mb ->
  exists ma2 mb2, aligned a b ma2 mb2 /\ count id ma <= (count id ma2).+1.
Proof.
case: ma => [|[] ma] //= /and3P []; rewrite eqSS => sa sb al; last first.
  by exists ma, mb; rewrite /aligned sa sb al ltnW.
have [mb' [sz' E le]] := mask_behead (eqP sb).
exists ma, mb'; rewrite /aligned sa sz' sb E add1n ltnSn; split=> //=.
by case: (mask mb b) al => //= z rest /andP [].
Qed.

Lemma aligned_dropR a y b ma mb :
  aligned a (y :: b) ma mb ->
  exists ma2 mb2, aligned a b ma2 mb2 /\ count id ma <= (count id ma2).+1.
Proof.
case: mb => [|[] mb] //= /and3P []; rewrite ?andbF // eqSS => sa sb al; last first.
  by exists ma, mb; rewrite /aligned sa sb al ltnW.
have [ma' [sz' E le]] := mask_behead (eqP sa).
exists ma', mb; rewrite /aligned sz' sa sb E; split=> //=.
by case: (mask ma a) al => //= z rest /andP [].
Qed.

Lemma lcsMasks_longest a b ma mb :
  aligned a b ma mb -> count id ma <= count id (lcsMasks a b).1.
Proof.
elim: a b ma mb => [|x a IHa] b ma mb.
  by case: ma.
elim: b ma mb => [|y b IHb] ma mb.
  case/and3P=> sa; rewrite size_eq0 => /eqP ->; rewrite all2E => /andP [+ _].
  by rewrite size_mask ?(eqP sa) // => /eqP ->.
rewrite lcsMasks_cons => al; case xy: (compareFunc x y).
  have le1 : forall ma' mb', aligned a b ma' mb' ->
      (count id ma').+1 <= count id (true :: (lcsMasks a b).1).
    by move=> ma' mb' /IHa.
  have -> : (let: (ma0, mb0) := lcsMasks a b in (true :: ma0, true :: mb0)).1
            = true :: (lcsMasks a b).1 by case: (lcsMasks a b).
  case: ma mb al => [|[] ma] [|[] mb] //=;
    rewrite /aligned /= ?eqSS ?andbF // ?xy /=.
  - exact: le1.
  - move=> al; have /aligned_dropL [ma2 [mb2 [al2 le]]] :
      aligned (x :: a) b (true :: ma) mb by rewrite /aligned /= eqSS.
    exact: leq_trans le (le1 _ _ al2).
  - move=> al; have /aligned_dropR [ma2 [mb2 [al2 le]]] :
      aligned a (y :: b) ma (true :: mb) by rewrite /aligned /= eqSS.
    exact: leq_trans le (le1 _ _ al2).
  - move=> al; have /aligned_dropR [ma2 [mb2 [al2 le]]] :
      aligned a (y :: b) ma (false :: mb) by rewrite /aligned /= eqSS.
    exact: leq_trans le (le1 _ _ al2).
have le1 : forall ma' mb', aligned a (y :: b) ma' mb' ->
    count id ma' <= count id (lcsMasks a (y :: b)).1 by move=> ? ?; apply: IHa.
move: le1 IHb.
case: (lcsMasks a (y :: b)) => ma1 mb1; case: (lcsMasks (x :: a) b) => ma2 mb2.
move=> /= le1 le2.
have {}le1 : forall ma' mb', aligned a (y :: b) ma' mb' ->
    count id ma' <= count id (if count id ma2 <= count id ma1
                              then (false :: ma1, mb1)
                              else (ma2, false :: mb2)).1.
  move=> ma' mb' /le1 le; case: ifP => //= /negbT; rewrite -ltnNge => lt.
  exact: leq_trans le (ltnW lt).
have {}le2 : forall ma' mb', aligned (x :: a) b ma' mb' ->
    count id ma' <= count id (if count id ma2 <= count id ma1
                              then (false :: ma1, mb1)
                              else (ma2, false :: mb2)).1.
  move=> ma' mb' /le2 le; case: ifP => //= le21.
  exact: leq_trans le le21.
case: ma mb al => [|[] ma] [|[] mb] //=;
  rewrite /aligned /= ?eqSS ?andbF // ?xy ?andbF //= => al.
- by apply: (le2 (true :: ma) mb); rewrite /aligned /= eqSS.
- by apply: (le1 ma (true :: mb)); rewrite /aligned /= eqSS.
- by apply: (le1 ma (false :: mb)); rewrite /aligned /= eqSS.
Qed.

End LcsMasks.

Lemma lcs_diff_contract : diffContract lcs_diff.
Proof.
move=> T compareFunc a b; rewrite /lcs_diff.
exists (lcsMasks compareFunc a b).1, (lcsMasks compareFunc a b).2.
have al := lcsMasks_aligned compareFunc a b.
have best := @lcsMasks_longest _ compareFunc a b.
by case: (lcsMasks compareFunc a b) al best => ma mb /=.
Qed.

(** ** One run of the reconciliation *)

Section Reconciliation.

Variable diff : ArrayDiff.
Variable env : Env.

Local Notation reconciled := (reconciled diff env).
Local Notation ticked := (ticked diff).

Lemma tick0 w : tick 0 w = w.
Proof. by case: w => *; rewrite /tick /= addn0. Qed.

Lemma tick_tick m n w : tick n (tick m w) = tick (m + n) w.
Proof. by rewrite /tick /= addnA. Qed.

Lemma pushUpdatesE type_ updates_ side w :
  pushUpdates env type_ updates_ side w
  = (Return (updates_ ++ stamped env type_ (clock w) side), tick (size side) w).
Proof.
rewrite /pushUpdates.
elim: side updates_ w => [|i side IH] updates_ w /=.
  by rewrite /ret cats0 tick0.
rewrite /bind /= /ret IH /= tick_tick add1n addn1.
by rewrite -cats1 -catA.
Qed.

Lemma saveDataFileToS3E rows prior w :
  saveDataFileToS3 diff env rows prior w =
  if s3_rejects env (requests w)
  then (Throw StorageError, requested (ticked rows prior w))
  else (Return (updates (reconciled rows prior w)),
        logged (PutDataFile (reconciled rows prior w))
          (stored_data (reconciled rows prior w)
             (requested (ticked rows prior w)))).
Proof.
rewrite /saveDataFileToS3 /bind !pushUpdatesE /= tick_tick.
rewrite /putObject_data /s3Request /= -catA.
by case: ifP.
Qed.

Lemma saveDataFileToS3_Return rows prior w ups w' :
  saveDataFileToS3 diff env rows prior w = (Return ups, w') ->
  [/\ s3_rejects env (requests w) = false,
      ups = updates (reconciled rows prior w),
      data_json w' = Some (reconciled rows prior w)
    & events w' = rcons (events w) (PutDataFile (reconciled rows prior w))].
Proof. by rewrite saveDataFileToS3E; case: ifP => // _ [<- <-]. Qed.

Lemma appendedTo_reconciled rows prior w :
  updates (reconciled rows prior w)
  = updates prior ++ appendedTo prior (reconciled rows prior w).
Proof. by rewrite /appendedTo /= drop_size_cat. Qed.

(** C5: the log after a successful run is the prior log, every record
    unchanged and in place, followed by the records of the run. *)
Theorem updates_append_only rows prior w ups w' :
  saveDataFileToS3 diff env rows prior w = (Return ups, w') ->
  exists after,
    [/\ data_json w' = Some after,
        updates after = updates prior ++ appendedTo prior after,
        take (size (updates prior)) (updates after) = updates prior
      & forall r0 i, i < size (updates prior) ->
          nth r0 (updates after) i = nth r0 (updates prior) i].
Proof.
move=> /saveDataFileToS3_Return [_ _ written _].
exists (reconciled rows prior w); split=> //.
- exact: appendedTo_reconciled.
- by rewrite /= take_size_cat.
- by move=> r0 i lt; rewrite /= nth_cat lt.
Qed.

(** C3, as amended: the reconciliation returns the whole update log it has
    just written, that is the prior log followed by the records appended
    during the run. *)
Theorem returns_written_log rows prior w ups w' :
  saveDataFileToS3 diff env rows prior w = (Return ups, w') ->
  exists after,
    [/\ data_json w' = Some after, ups = updates after
      & ups = updates prior ++ appendedTo prior after].
Proof.
move=> /saveDataFileToS3_Return [_ -> written _].
exists (reconciled rows prior w); split=> //.
exact: appendedTo_reconciled.
Qed.

(** C4, as amended: after a successful run the persisted instruments are
    the selected records sorted ascending by isinCode; they are strictly
    ascending, without duplicate isinCode, whenever the selected sequence
    has no duplicate isinCode. *)
Theorem persisted_sorted rows prior w ups w' :
  saveDataFileToS3 diff env rows prior w = (Return ups, w') ->
  exists after,
    [/\ data_json w' = Some after,
        ascending (instruments after),
        perm_eq (instruments after) [seq createInstrument r | r <- rows]
      & uniq (isinCodes [seq createInstrument r | r <- rows]) ->
        strictlyAscending (instruments after) /\ uniq (isinCodes (instruments after))].
Proof.
move=> /saveDataFileToS3_Return [_ _ written _].
exists (reconciled rows prior w); split=> //=.
- exact: Array_sort_ascending.
- exact: Array_sort_perm.
- move=> un; have strict := Array_sort_strict un.
  by split=> //; apply: strictlyAscending_uniq.
Qed.

End Reconciliation.

(** ** Runs under the contract of [diff] *)

Lemma stamped_instrument env type_ n side :
  [seq instrument r | r <- stamped env type_ n side] = side.
Proof. by elim: side n => [|i side IH] n //=; rewrite IH. Qed.

Lemma stamped_type env type_ n side :
  all (fun r => updateType r == type_) (stamped env type_ n side).
Proof. by elim: side n => [|i side IH] n //=; rewrite eqxx IH. Qed.

Lemma isinCodesOf_cat type_ s t :
  isinCodesOf type_ (s ++ t) = isinCodesOf type_ s ++ isinCodesOf type_ t.
Proof. by rewrite /isinCodesOf filter_cat map_cat. Qed.

Lemma isinCodesOf_stamped env type_ type' n side :
  isinCodesOf type_ (stamped env type' n side)
  = if type' == type_ then isinCodes side else [::].
Proof.
rewrite /isinCodesOf; elim: side n => [|i side IH] n /=; first by case: ifP.
by case: ifP (IH n.+1) => _ /= ->.
Qed.

Lemma isinCodes_filter (p : pred jsstring) s :
  isinCodes [seq i <- s | p (isinCode i)] = [seq k <- isinCodes s | p k].
Proof. by rewrite /isinCodes filter_map. Qed.

Section Contract.

Variable diff : ArrayDiff.
Hypothesis contract : diffContract diff.

(** On a prior snapshot already equal to the sorted selection the diff is
    empty. *)
Lemma snapshotDiff_same rows prior :
  instruments prior = newSnapshot rows ->
  removed (snapshotDiff diff rows prior) = [::] /\
  added (snapshotDiff diff rows prior) = [::].
Proof.
move=> same; apply: (lcsDiff_same (key := isinCode)) (contract _ _ _).
by rewrite /priorSnapshot same /newSnapshot Array_sort_idem.
Qed.

(** On snapshots without duplicate keys the diff is the difference of the
    two sorted arrays, each way. *)
Lemma snapshotDiff_uniq rows prior :
  uniq (isinCodes (instruments prior)) ->
  uniq (isinCodes [seq createInstrument r | r <- rows]) ->
  removed (snapshotDiff diff rows prior)
  = [seq i <- priorSnapshot prior
       | isinCode i \notin isinCodes [seq createInstrument r | r <- rows]] /\
  added (snapshotDiff diff rows prior)
  = [seq i <- newSnapshot rows | isinCode i \notin isinCodes (instruments prior)].
Proof.
move=> uP uN.
have sP := Array_sort_strict uP; have sN := Array_sort_strict uN.
have [] := lcsDiff_sorted js_lt_trans js_lt_irreflexive _ _
             (contract (fun a b => isinCode a == isinCode b)
                (priorSnapshot prior) (newSnapshot rows)).
- by rewrite sorted_map.
- by rewrite sorted_map.
rewrite -/(snapshotDiff diff rows prior) => -> ->; split; apply: eq_filter => i.
  by rewrite (perm_mem (isinCodes_sort _)).
by rewrite (perm_mem (isinCodes_sort _)).
Qed.

(** C1: with a [diff] that meets its contract, a second run with the same
    selected sequence, against the state a first successful run has
    written, appends no record (whatever the clock and the rest of the
    world at the second run). *)
Theorem reconciliation_idempotent env env' rows prior w ups1 w1 after1
    w' ups2 w2 after2 :
  saveDataFileToS3 diff env rows prior w = (Return ups1, w1) ->
  data_json w1 = Some after1 ->
  saveDataFileToS3 diff env' rows after1 w' = (Return ups2, w2) ->
  data_json w2 = Some after2 ->
  appendedTo after1 after2 = [::] /\ updates after2 = updates after1.
Proof.
move=> /saveDataFileToS3_Return [_ _ -> _] [<-].
move=> /saveDataFileToS3_Return [_ _ -> _] [<-].
have [] := @snapshotDiff_same rows (reconciled diff env rows prior w) erefl.
by rewrite /appendedTo /= => -> -> /=; rewrite !cats0 drop_size.
Qed.

(** The records of a run between duplicate-free snapshots. *)
Lemma appendedTo_uniq env rows prior w :
  uniq (isinCodes (instruments prior)) ->
  uniq (isinCodes [seq createInstrument r | r <- rows]) ->
  let P := Array_sort instrumentSortCompare (instruments prior) in
  let N := Array_sort instrumentSortCompare [seq createInstrument r | r <- rows] in
  let gone := [seq i <- P | isinCode i \notin isinCodes N] in
  let come := [seq i <- N | isinCode i \notin isinCodes P] in
  appendedTo prior (reconciled diff env rows prior w)
  = stamped env (u "removed") (clock w) gone
    ++ stamped env (u "added") (clock w + size gone) come.
Proof.
move=> uP uN P N gone come.
rewrite /appendedTo /= drop_size_cat //.
have [-> ->] := snapshotDiff_uniq uP uN.
have -> : gone = [seq i <- priorSnapshot prior
    | isinCode i \notin isinCodes [seq createInstrument r | r <- rows]].
  by apply: eq_filter => i; rewrite (perm_mem (isinCodes_sort _)).
have -> // : come = [seq i <- newSnapshot rows
    | isinCode i \notin isinCodes (instruments prior)].
by apply: eq_filter => i; rewrite (perm_mem (isinCodes_sort _)).
Qed.

(** C6: with a [diff] that meets its contract and duplicate-free prior
    and selected sequences, the records a run appends are the removed
    records, for the instruments of the sorted prior sequence absent from
    the selection and in that order, followed by the added records, for
    the instruments of the sorted selection absent from the prior
    sequence and in that order; both sorted sequences are strictly
    ascending by isinCode and each record carries the instrument record
    of its sequence. *)
Theorem appended_order env rows prior w ups w' :
  uniq (isinCodes (instruments prior)) ->
  uniq (isinCodes [seq createInstrument r | r <- rows]) ->
  saveDataFileToS3 diff env rows prior w = (Return ups, w') ->
  let P := Array_sort instrumentSortCompare (instruments prior) in
  let N := Array_sort instrumentSortCompare [seq createInstrument r | r <- rows] in
  let gone := [seq i <- P | isinCode i \notin isinCodes N] in
  let come := [seq i <- N | isinCode i \notin isinCodes P] in
  exists after,
    [/\ data_json w' = Some after,
        appendedTo prior after
        = stamped env (u "removed") (clock w) gone
          ++ stamped env (u "added") (clock w + size gone) come,
        strictlyAscending P /\ perm_eq P (instruments prior)
      & strictlyAscending N /\ perm_eq N [seq createInstrument r | r <- rows]].
Proof.
move=> uP uN /saveDataFileToS3_Return [_ _ written _] P N gone come.
exists (reconciled diff env rows prior w); split=> //.
- exact: appendedTo_uniq.
- by split; [apply: Array_sort_strict | apply: Array_sort_perm].
- by split; [apply: Array_sort_strict | apply: Array_sort_perm].
Qed.

Lemma all_stamped (q : pred Instrument) env type_ n side :
  all (fun r => q (instrument r)) (stamped env type_ n side) = all q side.
Proof. by elim: side n => [|i side IH] n //=; rewrite IH. Qed.

(** C2: with a [diff] that meets its contract, a duplicate-free prior
    sequence P and a duplicate-free selected sequence N, the records a run
    appends are of type removed or added, the keys of the
    removed records are those of P absent from N, the keys of the added
    records those of N absent from P, so that together they are the
    symmetric difference of the two key sets; no record bears a key
    present in both. *)
Theorem diff_complete env rows prior w ups w' :
  uniq (isinCodes (instruments prior)) ->
  uniq (isinCodes [seq createInstrument r | r <- rows]) ->
  saveDataFileToS3 diff env rows prior w = (Return ups, w') ->
  let P := isinCodes (instruments prior) in
  let N := isinCodes [seq createInstrument r | r <- rows] in
  exists after,
    data_json w' = Some after /\
    let new := appendedTo prior after in
    [/\ all (fun r => updateType r \in [:: u "removed"; u "added"]) new,
        forall k, (k \in isinCodesOf (u "removed") new) = (k \in P) && (k \notin N),
        forall k, (k \in isinCodesOf (u "added") new) = (k \in N) && (k \notin P),
        forall k, (k \in [seq isinCode (instrument r) | r <- new])
                  = (k \in P) (+) (k \in N)
      & all (fun r => ~~ ((isinCode (instrument r) \in P)
                          && (isinCode (instrument r) \in N))) new].
Proof.
move=> uP uN /saveDataFileToS3_Return [_ _ written _] P N.
exists (reconciled diff env rows prior w); split=> //.
rewrite (appendedTo_uniq env w uP uN) /=.
set sP := Array_sort _ (instruments prior).
set sN := Array_sort _ [seq createInstrument r | r <- rows].
have mP k : (k \in isinCodes sP) = (k \in P) by rewrite (perm_mem (isinCodes_sort _)).
have mN k : (k \in isinCodes sN) = (k \in N) by rewrite (perm_mem (isinCodes_sort _)).
split.
- rewrite all_cat; apply/andP; split.
    by apply: sub_all (stamped_type _ _ _ _) => r /eqP ->.
  by apply: sub_all (stamped_type _ _ _ _) => r /eqP ->.
- move=> k; rewrite isinCodesOf_cat !isinCodesOf_stamped /= cats0.
  by rewrite (isinCodes_filter (fun k => k \notin isinCodes sN)) mem_filter mN mP andbC.
- move=> k; rewrite isinCodesOf_cat !isinCodesOf_stamped /=.
  by rewrite (isinCodes_filter (fun k => k \notin isinCodes sP)) mem_filter mN mP andbC.
- move=> k; rewrite map_cat mem_cat !(map_comp isinCode instrument).
  rewrite !stamped_instrument.
  rewrite -/(isinCodes _) (isinCodes_filter (fun k => k \notin isinCodes sN)).
  rewrite -/(isinCodes [seq i <- sN | _]).
  rewrite (isinCodes_filter (fun k => k \notin isinCodes sP)).
  rewrite !mem_filter !mN !mP.
  by case: (k \in P); case: (k \in N).
- rewrite all_cat.
  rewrite (all_stamped (fun i => ~~ ((isinCode i \in P) && (isinCode i \in N)))).
  rewrite (all_stamped (fun i => ~~ ((isinCode i \in P) && (isinCode i \in N)))).
  rewrite !all_filter; apply/andP; split; apply/allP => i _ /=.
    by rewrite mN; apply/implyP => /negbTE ->; rewrite andbF.
  by rewrite mP; apply/implyP => /negbTE ->.
Qed.

Lemma stamped_same env1 env2 c1 c2 type_ side n :
  (forall i, Date_toISOString env1 (c1 + i) = Date_toISOString env2 (c2 + i)) ->
  stamped env1 type_ (c1 + n) side = stamped env2 type_ (c2 + n) side.
Proof.
move=> same; elim: side n => [|i side IH] n //=.
by rewrite same -!addnS IH.
Qed.

(** C10: the blob written and the list returned by the reconciliation
    depend on the prior blob, on the selected rows and on the readings of
    the clock only: two runs that agree on these, in whatever worlds and
    environments, write the same blob and return the same list; the
    validator and the selector take no other input than their argument. *)
Theorem core_deterministic env1 env2 w1 w2 rows prior :
  (forall i, Date_toISOString env1 (clock w1 + i) = Date_toISOString env2 (clock w2 + i)) ->
  s3_rejects env1 (requests w1) = false ->
  s3_rejects env2 (requests w2) = false ->
  [/\ (saveDataFileToS3 diff env1 rows prior w1).1
      = (saveDataFileToS3 diff env2 rows prior w2).1,
      data_json (saveDataFileToS3 diff env1 rows prior w1).2
      = data_json (saveDataFileToS3 diff env2 rows prior w2).2,
      exists after,
        data_json (saveDataFileToS3 diff env1 rows prior w1).2 = Some after
        /\ (saveDataFileToS3 diff env1 rows prior w1).1 = Return (updates after),
      forall (b1 b2 : body) (u1 u2 : World),
        b1 = b2 ->
        (lift (doParseAndValidation b1) u1).1 = (lift (doParseAndValidation b2) u2).1
    & forall s1 s2, s1 = s2 -> selectInstruments s1 = selectInstruments s2].
Proof.
move=> sameClock ok1 ok2.
have same : reconciled diff env1 rows prior w1 = reconciled diff env2 rows prior w2.
  rewrite /reconciled -[clock w1]addn0 -[clock w2]addn0 -!addnA !add0n.
  by rewrite !(stamped_same _ _ _ sameClock).
rewrite !saveDataFileToS3E ok1 ok2 same.
split=> // [|b1 b2 _ _ -> //|s1 s2 -> //].
by exists (reconciled diff env2 rows prior w2).
Qed.

End Contract.

(** ** Validated rows have a typed view *)

Lemma rowOk_typed row :
  rowOk row -> exists2 r, asInstrumentRow row = Some r & rowJSON r = row.
Proof.
case: row => // elements /andP [_]; rewrite /fieldsOk /= /constraint /= andbT.
case: elements => [|e0 [|e1 [|e2 [|e3 [|e4 rest]]]]] //=; rewrite ?andbF //.
case: e0 => [|?|?|s0|?|?] //=; case: e1 => [|?|?|s1|?|?] //=; rewrite ?andbF //.
case: e2 => [|?|?|s2|?|?] //=; rewrite ?andbF //.
case: e3 => [|?|?|s3|?|?] //=; rewrite ?andbF //.
case: e4 => [|?|?|s4|?|?] //=; rewrite ?andbF // => _.
by exists (Row s0 s1 s2 s3 s4 rest).
Qed.

Lemma rows_typed rows :
  all rowOk rows -> [seq rowJSON r | r <- typedRows rows] = rows.
Proof.
elim: rows => [|row rows IH] //= /andP [/rowOk_typed [r E <-] /IH {}IH].
by rewrite /typedRows /= in IH *; rewrite IH.
Qed.

Lemma doParseAndValidation_rowOk b rows :
  doParseAndValidation b = Return rows -> all rowOk rows.
Proof.
case: b => // parsedBody.
have [->|nn] : parsedBody = JNull \/ parsedBody <> JNull.
- by case: parsedBody; by [left | right].
- by [].
have := doParseAndValidationP nn; rewrite /bodyOk.
case: (dataShape _) => /=; last by case=> msg [e [-> _]].
by case: ifP => [ok -> [<-]|_ [msg [e [-> _]]]].
Qed.

(** The typed view loses nothing of what the validator returns. *)
Lemma rows_validated b rows :
  doParseAndValidation b = Return rows ->
  [seq rowJSON r | r <- typedRows rows] = rows.
Proof. by move/doParseAndValidation_rowOk/rows_typed. Qed.

(** ** The order of effects in [Handler] *)

Lemma doParseAndValidation_throws b e :
  doParseAndValidation b = Throw e ->
  [\/ e = SyntaxError, e = TypeError
     | exists msg v, e = InstrumentError msg v].
Proof.
case: b => [parsedBody|[<-]]; last by constructor 1.
have [->|nn] : parsedBody = JNull \/ parsedBody <> JNull.
- by case: parsedBody; by [left | right].
- by case=> <-; constructor 2.
have := doParseAndValidationP nn.
case: ifP => [_ -> //|_ [msg [v [-> _]]] [<-]].
by constructor 3; exists msg, v.
Qed.

Section Effects.

Variable diff : ArrayDiff.
Variable env : Env.

Lemma cat_self (T : Type) (s t : seq T) x rest :
  s = s ++ t ++ x :: rest -> False.
Proof.
move/(congr1 size)/eqP.
by rewrite !size_cat /= -[X in X == _]addn0 eqn_add2l addnS.
Qed.

(** From the rendering on (lines 268-270): the rendering is logged, then
    at most the upload of the page. *)
Lemma render_upload (instrumentUpdates : seq Update) w outcome w' :
  (html <- renderHtml env instrumentUpdates ;;
   uploadInstrumentUpdatesToS3 env html ;;;
   ret "instrument updates generated"%string)%js w = (outcome, w') ->
  [/\ data_json w' = data_json w,
      exists2 tail,
        events w' = events w ++ RenderFile instrumentUpdates :: tail
        & tail = [::] \/ exists html, tail = [:: PutHtml html],
      outcome = Throw RenderError ->
      events w' = rcons (events w) (RenderFile instrumentUpdates)
    & [\/ outcome = Throw RenderError, outcome = Throw StorageError
        | exists r, outcome = Return r]].
Proof.
rewrite /= /bind /renderHtml /uploadInstrumentUpdatesToS3 /putObject_html.
rewrite /s3Request /=.
case: (ejs_renderFile env _) => [html|] /=; last first.
  by case=> <- <-; split=> //; [exists [::]; rewrite ?cats1; auto | constructor 1].
case: (s3_rejects env _) => /= -[<- <-].
  by split=> //; [exists [::]; rewrite ?cats1; auto | constructor 2].
split=> //; last by constructor 3; eexists.
by exists [:: PutHtml html]; [rewrite /= -!cats1 -catA | right; exists html].
Qed.

(** C8: a run that ends in a fetch error or in a validation error has
    changed nothing: no request to the bucket, no write. On the
    reconciliation path (the bucket holds a prior state) every rendering
    comes right after the completed write of the reconciled state, which
    is what the bucket holds at the end of the run: the sorted selection
    as snapshot, and as log the prior log followed by one record per
    element of the diff, the removed ones first, stamped by the successive
    readings of the clock. In particular, when the run ends in a rendering
    error, that write and the failed rendering are all that happened, and
    the bucket holds the new snapshot and the log so extended. *)
Theorem commit_before_render w outcome w' :
  Handler diff env w = (outcome, w') ->
  [/\ outcome = Throw FetchError \/
      (exists msg e, outcome = Throw (InstrumentError msg e)) -> w' = w,
      forall prior, data_json w = Some prior ->
        forall before ups rest,
          events w' = events w ++ before ++ RenderFile ups :: rest ->
          exists after b rows,
            let P := Array_sort instrumentSortCompare (instruments prior) in
            let N := Array_sort instrumentSortCompare
                       [seq createInstrument r
                          | r <- selectInstruments (typedRows rows)] in
            let d := diff P N (fun a b => isinCode a == isinCode b) in
            [/\ before = [:: PutDataFile after],
                data_json w' = Some after,
                request_get env = Some b /\ doParseAndValidation b = Return rows,
                instruments after = N
              & updates after
                = updates prior
                  ++ stamped env (u "removed") (clock w) (removed d)
                  ++ stamped env (u "added") (clock w + size (removed d)) (added d)]
    & forall prior, data_json w = Some prior -> outcome = Throw RenderError ->
        exists after ups b rows,
          let P := Array_sort instrumentSortCompare (instruments prior) in
          let N := Array_sort instrumentSortCompare
                     [seq createInstrument r
                        | r <- selectInstruments (typedRows rows)] in
          let d := diff P N (fun a b => isinCode a == isinCode b) in
          [/\ events w' = events w ++ [:: PutDataFile after; RenderFile ups],
              data_json w' = Some after,
              request_get env = Some b /\ doParseAndValidation b = Return rows,
              instruments after = N
            & updates after = updates prior ++ appendedTo prior after /\
              appendedTo prior after
              = stamped env (u "removed") (clock w) (removed d)
                ++ stamped env (u "added") (clock w + size (removed d)) (added d)]].
Proof.
rewrite /Handler {1}/bind /getInstrumentsData.
case get: (request_get env) => [b|] /=; last first.
  by case=> <- <-; split=> // prior _ before ups rest E; case: (cat_self E).
rewrite {1}/bind /lift.
case valid: (doParseAndValidation b) => [rows|e] /=; last first.
  case=> <- <-; split=> // [prior _ before ups rest E|prior _ E].
    by case: (cat_self E).
  by case: (doParseAndValidation_throws valid) E => [->|->|[msg [v ->]]].
set selected := selectInstruments _.
rewrite {1}/bind /doesDataFileExist {1}/s3Request.
case: (s3_rejects env (requests w)) => /=.
  case=> <- <-; split=> // [[|[msg [e]]] //|prior _ before ups rest E].
  by case: (cat_self E).
case prior: (data_json w) => [prior0|] /=.
  rewrite {1}/bind /readDataFileFromS3 {1}/s3Request /= prior.
  case: (s3_rejects env (requests w).+1) => /=.
    case=> <- <-; split=> // [[|[msg [e]]] //|? _ before ups rest E].
    by case: (cat_self E).
  have pushE type_ updates_ side w0 :
      pushUpdates env type_ updates_ side w0
      = (Return (updates_ ++ stamped env type_ (clock w0) side),
         tick (size side) w0).
    rewrite /pushUpdates; elim: side updates_ w0 => [|i side IH] updates_ w0 /=.
      by rewrite /ret cats0 tick0.
    by rewrite /bind /= /ret IH /= tick_tick add1n addn1 -cats1 -catA.
  rewrite {1}/bind {1}/saveDataFileToS3 /bind !pushE /= tick_tick.
  rewrite /putObject_data /s3Request /= -catA.
  case: (s3_rejects env (requests w).+2) => /=.
    case=> <- <-; split=> // [[|[msg [e]]] //|? _ before ups rest E].
    by case: (cat_self E).
  rewrite -/(reconciled diff env selected prior0 (requested (requested w))).
  set after := reconciled _ _ _ _ _.
  set w3 := logged _ _; set ups := Array_sort _ _.
  have ev3 : events w3 = rcons (events w) (PutDataFile after) by [].
  have dj3 : data_json w3 = Some after by [].
  move=> /render_upload [dj [tail ev short] rerr kinds]; split.
  - by case=> [|[msg [e]]] oE; case: kinds => [|| [r]]; rewrite oE.
  - move=> ? [<-] before ups' rest.
    rewrite ev ev3 -cats1 -catA /= => /(congr1 (drop (size (events w)))).
    rewrite !drop_size_cat //; case: before => [|e1 [|e2 before]] //=.
      by case=> <- _; exists after, b, rows; split; rewrite ?dj ?dj3.
    by case: short => [->|[html ->]]; case: before => [|e3 [|e4 before]].
  - move=> ? [<-] /rerr; rewrite ev3 => ev'.
    exists after, ups, b, rows; split=> //; rewrite ?dj ?dj3 //.
    + by rewrite ev' -!cats1 -catA.
    + by split; [exact: appendedTo_reconciled | rewrite /appendedTo /= drop_size_cat].
rewrite {1}/bind /initDataFileToS3 /putObject_data {1}/s3Request /=.
case: (s3_rejects env (requests w).+1) => /=.
  by case=> <- <-; split=> // [[|[msg [e]]]].
rewrite {1}/bind /= => /render_upload [_ _ _ kinds]; split=> //.
by case=> [|[msg [e]]] oE; case: kinds => [|| [r]]; rewrite oE.
Qed.

End Effects.

(** ** The sample run *)

Example sampleRun_outcome :
  sampleRun = (Return (updates sampleAfter), sampleRun.2) /\
  data_json sampleRun.2 = Some sampleAfter.
Proof. by []. Qed.

Lemma updates_append_only_witness :
  sampleRun = (Return (updates sampleAfter), sampleRun.2) /\
  exists after,
    [/\ data_json sampleRun.2 = Some after,
        updates after = updates samplePrior ++ appendedTo samplePrior after,
        take (size (updates samplePrior)) (updates after) = updates samplePrior
      & forall r0 i, i < size (updates samplePrior) ->
          nth r0 (updates after) i = nth r0 (updates samplePrior) i].
Proof.
have run : sampleRun = (Return (updates sampleAfter), sampleRun.2) by [].
by split; [exact: run | exact: updates_append_only run].
Defined.

Lemma returns_written_log_witness :
  sampleRun = (Return (updates sampleAfter), sampleRun.2) /\
  exists after,
    [/\ data_json sampleRun.2 = Some after, updates sampleAfter = updates after
      & updates sampleAfter = updates samplePrior ++ appendedTo samplePrior after].
Proof.
have run : sampleRun = (Return (updates sampleAfter), sampleRun.2) by [].
by split; [exact: run | exact: returns_written_log run].
Defined.

(** C3, counterexample: the prior log holds one record, the run appends
    two, and the list returned holds all three. *)
Lemma returns_more_than_appended :
  ~ (forall ups w' after,
       sampleRun = (Return ups, w') -> data_json w' = Some after ->
       ups = appendedTo samplePrior after).
Proof. by move/(_ _ _ _ erefl erefl). Qed.

Lemma persisted_sorted_witness :
  [/\ sampleRun = (Return (updates sampleAfter), sampleRun.2),
      uniq (isinCodes [seq createInstrument r | r <- sampleRows])
    & exists after,
        [/\ data_json sampleRun.2 = Some after,
            ascending (instruments after),
            perm_eq (instruments after) [seq createInstrument r | r <- sampleRows]
          & strictlyAscending (instruments after)
            /\ uniq (isinCodes (instruments after))]].
Proof.
have run : sampleRun = (Return (updates sampleAfter), sampleRun.2) by [].
have un : uniq (isinCodes [seq createInstrument r | r <- sampleRows]) by [].
split; [exact: run | exact: un |].
have [after [written asc perm strict]] := persisted_sorted run.
by exists after; split=> //; apply: strict.
Defined.

(** C4, counterexample: a selection in which one isinCode comes twice is
    persisted with the duplicate. *)
Lemma duplicates_persisted :
  ~ (forall ups w' after,
       doubledRun = (Return ups, w') -> data_json w' = Some after ->
       strictlyAscending (instruments after)
       /\ uniq (isinCodes (instruments after))).
Proof. by move/(_ _ _ _ erefl erefl) => [_]. Qed.

Lemma reconciliation_idempotent_witness :
  [/\ diffContract lcs_diff,
      sampleRun = (Return (updates sampleAfter), sampleRun.2),
      data_json sampleRun.2 = Some sampleAfter,
      sampleRerun = (Return (updates sampleAfter), sampleRerun.2)
    & data_json sampleRerun.2 = Some sampleAfter]
  /\ appendedTo sampleAfter sampleAfter = [::]
  /\ updates sampleAfter = updates sampleAfter.
Proof.
have run : sampleRun = (Return (updates sampleAfter), sampleRun.2) by [].
have written : data_json sampleRun.2 = Some sampleAfter by [].
have rerun : sampleRerun = (Return (updates sampleAfter), sampleRerun.2) by [].
have rewritten : data_json sampleRerun.2 = Some sampleAfter by [].
split; first by split=> //; exact: lcs_diff_contract.
exact: (reconciliation_idempotent lcs_diff_contract run written rerun rewritten).
Defined.

Lemma diff_complete_witness :
  [/\ diffContract lcs_diff,
      uniq (isinCodes (instruments samplePrior)),
      uniq (isinCodes [seq createInstrument r | r <- sampleRows])
    & sampleRun = (Return (updates sampleAfter), sampleRun.2)]
  /\ let P := isinCodes (instruments samplePrior) in
     let N := isinCodes [seq createInstrument r | r <- sampleRows] in
     exists after,
       data_json sampleRun.2 = Some after /\
       let new := appendedTo samplePrior after in
       [/\ all (fun r => updateType r \in [:: u "removed"; u "added"]) new,
           forall k, (k \in isinCodesOf (u "removed") new) = (k \in P) && (k \notin N),
           forall k, (k \in isinCodesOf (u "added") new) = (k \in N) && (k \notin P),
           forall k, (k \in [seq isinCode (instrument r) | r <- new])
                     = (k \in P) (+) (k \in N)
         & all (fun r => ~~ ((isinCode (instrument r) \in P)
                             && (isinCode (instrument r) \in N))) new].
Proof.
have run : sampleRun = (Return (updates sampleAfter), sampleRun.2) by [].
have uP : uniq (isinCodes (instruments samplePrior)) by [].
have uN : uniq (isinCodes [seq createInstrument r | r <- sampleRows]) by [].
split; first by split=> //; exact: lcs_diff_contract.
exact: (diff_complete lcs_diff_contract uP uN run).
Defined.

Lemma appended_order_witness :
  [/\ diffContract lcs_diff,
      uniq (isinCodes (instruments samplePrior)),
      uniq (isinCodes [seq createInstrument r | r <- sampleRows])
    & sampleRun = (Return (updates sampleAfter), sampleRun.2)]
  /\ exists after,
       [/\ data_json sampleRun.2 = Some after,
           appendedTo samplePrior after
           = stamped sampleEnv (u "removed") 0 [:: createInstrument mol]
             ++ stamped sampleEnv (u "added") 1 [:: createInstrument richter],
           strictlyAscending [:: createInstrument otp; createInstrument mol]
         & strictlyAscending [:: createInstrument otp; createInstrument richter]].
Proof.
have run : sampleRun = (Return (updates sampleAfter), sampleRun.2) by [].
have uP : uniq (isinCodes (instruments samplePrior)) by [].
have uN : uniq (isinCodes [seq createInstrument r | r <- sampleRows]) by [].
split; first by split=> //; exact: lcs_diff_contract.
have [after [written order [sP _] [sN _]]] :=
  appended_order lcs_diff_contract uP uN run.
by exists after; split.
Defined.

Lemma core_deterministic_witness :
  [/\ forall i, Date_toISOString sampleEnv (clock sampleWorld + i)
                = Date_toISOString brokenTemplate (clock otherWorld + i),
      s3_rejects sampleEnv (requests sampleWorld) = false
    & s3_rejects brokenTemplate (requests otherWorld) = false]
  /\ (saveDataFileToS3 lcs_diff sampleEnv sampleRows samplePrior sampleWorld).1
     = (saveDataFileToS3 lcs_diff brokenTemplate sampleRows samplePrior otherWorld).1
  /\ data_json (saveDataFileToS3 lcs_diff sampleEnv sampleRows samplePrior sampleWorld).2
     = data_json (saveDataFileToS3 lcs_diff brokenTemplate sampleRows samplePrior otherWorld).2.
Proof.
have sameClock i : Date_toISOString sampleEnv (clock sampleWorld + i)
                   = Date_toISOString brokenTemplate (clock otherWorld + i) by [].
have ok1 : s3_rejects sampleEnv (requests sampleWorld) = false by [].
have ok2 : s3_rejects brokenTemplate (requests otherWorld) = false by [].
split; first by split.
by have [-> -> _ _ _] :=
  core_deterministic lcs_diff sampleRows samplePrior sameClock ok1 ok2.
Defined.

Lemma commit_before_render_witness :
  (brokenInvocation = (Throw RenderError, brokenWorld) /\
   data_json sampleWorld = Some samplePrior) /\
  exists after ups,
    [/\ events brokenWorld
        = events sampleWorld ++ [:: PutDataFile after; RenderFile ups],
        data_json brokenWorld = Some after,
        instruments after = [:: createInstrument otp]
      & updates after
        = [:: oldUpdate;
              {| updateType := u "removed"; dateTime := sampleClock 0;
                 instrument := createInstrument mol |}]].
Proof.
have run : brokenInvocation = (Throw RenderError, brokenWorld) by [].
have prior : data_json sampleWorld = Some samplePrior by [].
split; first by split; [exact: run | exact: prior].
have [_ _ /(_ samplePrior prior erefl)] := commit_before_render run.
move=> [after [ups [b [rows]]]]; cbv zeta.
move=> [ev written [[<-] [<-]] snapshot [log new]].
by exists after, ups; split=> //; rewrite log new.
Defined.

(** ** The scenarios of the specification, run on the embedding *)

(** Scenario A, bootstrap: the selection is written sorted with an empty
    log, and an empty list goes to the template. *)
Example scenario_bootstrap :
  let: (outcome, w) := Handler lcs_diff sampleEnv emptyWorld in
  [/\ outcome = Return "instrument updates generated"%string,
      data_json w = Some {| instruments := [:: createInstrument otp]; updates := [::] |}
    & events w
      = [:: PutDataFile {| instruments := [:: createInstrument otp]; updates := [::] |};
            RenderFile [::]; PutHtml (u "<html></html>")]].
Proof. by []. Qed.

(** Scenarios B and C: one instrument added, one removed. *)
Example scenario_added_removed :
  appendedTo samplePrior sampleAfter
  = [:: {| updateType := u "removed"; dateTime := sampleClock 0;
           instrument := createInstrument mol |};
        {| updateType := u "added"; dateTime := sampleClock 1;
           instrument := createInstrument richter |}]
  /\ data_json sampleRun.2 = Some sampleAfter.
Proof. by []. Qed.

(** Scenario D: a row of two cells is reported and nothing is written. *)
Example scenario_short_row :
  Handler lcs_diff (withBody shortRowBody) sampleWorld
  = (Throw (InstrumentError "invalid instrument row" (Some shortRow)), sampleWorld).
Proof. by []. Qed.

(** Scenario E: an ISIN code that starts with digits. *)
Example scenario_digits_first :
  Handler lcs_diff (withBody digitsFirstBody) sampleWorld
  = (Throw (InstrumentError "invalid instrument ISIN code"
              (Some (JString (u "12AB34567890")))), sampleWorld).
Proof. by []. Qed.

(** The state of a bootstrap is also one against which the same selection
    appends nothing. *)
Lemma bootstrap_then_reconcile diff env' rows w ups w' after :
  diffContract diff ->
  saveDataFileToS3 diff env' rows
    {| instruments :=
         Array_sort instrumentSortCompare [seq createInstrument r | r <- rows];
       updates := [::] |} w = (Return ups, w') ->
  data_json w' = Some after -> updates after = [::].
Proof.
move=> contract /saveDataFileToS3_Return [_ _ -> _] [<-] /=.
by have [-> ->] := @snapshotDiff_same diff contract rows
                     {| instruments := newSnapshot rows; updates := [::] |} erefl.
Qed.

(** * Further properties of the code *)

(** ** The comparator *)

(** X1: [instrumentSortCompare] is a consistent comparator, as
    [Array.prototype.sort] requires: its value is -1, 0 or 1, swapping the
    arguments negates it, it is 0 exactly on equal isinCode, and "not
    above" is transitive. *)
Theorem instrumentSortCompare_consistent :
  [/\ forall a b, [\/ instrumentSortCompare a b = (-1)%Z,
                      instrumentSortCompare a b = 0%Z
                    | instrumentSortCompare a b = 1%Z],
      forall a b, instrumentSortCompare b a = (- instrumentSortCompare a b)%Z,
      forall a b, instrumentSortCompare a b = 0%Z <-> isinCode a = isinCode b
    & forall a b c,
        (instrumentSortCompare a b <= 0)%Z -> (instrumentSortCompare b c <= 0)%Z ->
        (instrumentSortCompare a c <= 0)%Z].
Proof.
have cases a b :
    [\/ js_lt (isinCode a) (isinCode b) /\ js_lt (isinCode b) (isinCode a) = false,
        isinCode a = isinCode b
      | js_lt (isinCode b) (isinCode a) /\ js_lt (isinCode a) (isinCode b) = false].
  case/or3P: (js_lt_total (isinCode a) (isinCode b)) => [/eqP e|lt|lt].
  - by constructor 2.
  - by constructor 1; split=> //; apply/negbTE/js_lt_asym.
  - by constructor 3; split=> //; apply/negbTE/js_lt_asym.
split.
- move=> a b; rewrite /instrumentSortCompare /js_gt.
  case: (cases a b) => [[-> ->]|->|[-> ->]]; rewrite ?js_lt_irreflexive.
  + by constructor 1.
  + by constructor 2.
  + by constructor 3.
- move=> a b; rewrite /instrumentSortCompare /js_gt.
  by case: (js_lt _ _); case: (js_lt _ _).
- move=> a b; rewrite /instrumentSortCompare /js_gt; split.
    by case: (cases a b) => [[-> ->]|//|[-> ->]].
  by move=> ->; rewrite js_lt_irreflexive.
- move=> a b c /Z.leb_le ab /Z.leb_le bc; apply/Z.leb_le.
  exact: isinLe_trans ab bc.
Qed.

Section HandlerForm.

Variable diff : ArrayDiff.
Variable env : Env.

Lemma presentE instrumentUpdates w :
  (let instrumentUpdates := Array_sort (byDateDescending env) instrumentUpdates in
   html <- renderHtml env instrumentUpdates ;;
   uploadInstrumentUpdatesToS3 env html ;;;
   ret "instrument updates generated"%string) w
  = present env instrumentUpdates w.
Proof.
rewrite /present /= /bind /renderHtml /uploadInstrumentUpdatesToS3.
rewrite /putObject_html /s3Request /=.
case: (ejs_renderFile env _) => [html|] //=.
by case: (s3_rejects env _).
Qed.

Lemma HandlerE w : Handler diff env w = HandlerClosed diff env w.
Proof.
rewrite /Handler /HandlerClosed {1}/bind /getInstrumentsData.
case: (request_get env) => [b|] //=.
rewrite {1}/bind /lift; case: (doParseAndValidation b) => [rows|e] //=.
rewrite {1}/bind /doesDataFileExist {1}/s3Request.
case: (s3_rejects env (requests w)) => //=.
case prior: (data_json w) => [prior0|] /=.
  rewrite {1}/bind /readDataFileFromS3 {1}/s3Request /= prior.
  case: (s3_rejects env (requests w).+1) => //=.
  rewrite {1}/bind saveDataFileToS3E /=.
  case: (s3_rejects env (requests w).+2) => //=.
  exact: presentE.
rewrite {1}/bind /initDataFileToS3 /putObject_data {1}/s3Request /=.
case: (s3_rejects env (requests w).+1) => //=.
rewrite {1}/bind /=.
exact: presentE.
Qed.

End HandlerForm.

(** ** The validator *)

(** X2: a string matches [ISIN_CODE_REGEX] exactly when it has twelve
    code units, the first two being upper-case letters, the next nine
    upper-case letters or digits and the last a digit. *)
Theorem ISIN_CODE_REGEX_matches s :
  ISIN_CODE_REGEX s =
  [&& size s == 12, all (fun i => upper (nth 0 s i)) (iota 0 2),
      all (fun i => upper (nth 0 s i) || digit (nth 0 s i)) (iota 2 9)
    & digit (nth 0 s 11)].
Proof.
rewrite ISIN_CODE_REGEX_pattern /isinPattern.
move: s => [|c0 [|c1 [|c2 [|c3 [|c4 [|c5 [|c6 [|c7 [|c8 [|c9 [|c10 [|c11 [|c12 s]]]]]]]]]]]]] //.
by rewrite /= !andbT.
Qed.

(** X3: the field checks run in the order ticker, short name, long name,
    ISIN code, type, and the error is that of the first field that breaks
    its constraint, with that field's message and value. *)
Theorem validateFields_first row i :
  i < 5 ->
  (forall j, j < i -> constraint j (cell row j)) ->
  ~~ constraint i (cell row i) ->
  validateFields row = Throw (InstrumentError (fieldMessage i) (cell row i)).
Proof.
rewrite /validateFields !between_test type_test isin_test.
move: i => [|[|[|[|[|i]]]]] // _ before bad.
- by rewrite (negbTE bad : between 1 12 _ = false).
- move: (before 0 isT); rewrite /constraint /= => ->.
  by rewrite (negbTE bad : between 2 24 _ = false).
- move: (before 0 isT) (before 1 isT); rewrite /constraint /= => -> ->.
  by rewrite (negbTE bad : between 2 64 _ = false).
- move: (before 0 isT) (before 1 isT) (before 2 isT).
  rewrite /constraint /= => -> -> ->.
  by rewrite (negbTE bad : isinPattern _ = false).
- move: (before 0 isT) (before 1 isT) (before 2 isT) (before 3 isT).
  rewrite /constraint /= => -> -> -> ->.
  by rewrite (negbTE bad : between 0 24 _ = false).
Qed.

(** X4: the sixth and seventh cells of a row are ignored: two rows with
    the same first five cells and at most two further cells each have the
    same outcome. *)
Theorem validateRow_ignores_tail cells tail1 tail2 :
  size cells = 5 -> size tail1 <= 2 -> size tail2 <= 2 ->
  validateRow (JArray (cells ++ tail1)) = validateRow (JArray (cells ++ tail2)).
Proof.
case: cells => [|c0 [|c1 [|c2 [|c3 [|c4 [|c5 cells]]]]]] //= _ short1 short2.
rewrite /validateRow /validateFields /= !ltnS.
by rewrite !ltnNge short1 short2.
Qed.

(** X5: what the validator of part_000 returns is a non-empty list of
    rows of exactly five cells, each field within its constraint. *)
Theorem Part000_validated b rows :
  Part000.doParseAndValidation b = Return rows ->
  (0 < size rows) && all (fun row => rowOk row && (len (Some row) == 5)) rows.
Proof.
case: b => [parsedBody|] //.
rewrite /Part000.doParseAndValidation /validateWith.
case: (dot_data parsedBody) => [data|e] //=.
rewrite rowsOf_test; case: ifP => // /negbT; rewrite negb_or negbK => /andP [arr].
case: data arr => [[]|] //= rows0 _ nonempty.
case E: (forEach _ _) => [[]|] //= [<-]; rewrite lt0n nonempty /=.
elim: rows0 E {nonempty} => [|row rows0 IH] //=.
rewrite {1}/Part000.validateRow.
case: row => //= cells; case: eqP => //= five.
have := validateFieldsP (JArray cells).
case: ifP => [ok -> /= /IH -> |_ [msg [i [_ _ ->]]] //].
by rewrite /rowOk /rowShape /= five ok.
Qed.

(** ** The reconciliation *)


Lemma stamped_dateTime env type_ n side :
  [seq dateTime r | r <- stamped env type_ n side]
  = [seq Date_toISOString env (n + k) | k <- iota 0 (size side)].
Proof.
elim: side n => [|i side IH] n //=; rewrite addn0 IH; congr (_ :: _).
rewrite -[1]addn0 iotaDl -map_comp; apply: eq_map => k /=.
by rewrite addnA addn1.
Qed.

Lemma stamped_updateType env type_ n side :
  [seq updateType r | r <- stamped env type_ n side] = nseq (size side) type_.
Proof. by elim: side n => [|i side IH] n //=; rewrite IH. Qed.

Lemma size_stamped env type_ n side : size (stamped env type_ n side) = size side.
Proof. by rewrite -(size_map instrument) stamped_instrument. Qed.

(** X7: for any [diff], the records a successful run appends are one per
    element of [removed], in order and of type removed, then one per
    element of [added], in order and of type added; each is stamped by
    its own reading of the clock, in succession, and the run reads the
    clock exactly once per record. *)
Theorem appended_stamps diff env rows prior w ups w' :
  saveDataFileToS3 diff env rows prior w = (Return ups, w') ->
  let d := diff _ (Array_sort instrumentSortCompare (instruments prior))
             (Array_sort instrumentSortCompare [seq createInstrument r | r <- rows])
             (fun a b => isinCode a == isinCode b) in
  exists after,
    data_json w' = Some after /\
    let new := appendedTo prior after in
    [/\ [seq instrument r | r <- new] = removed d ++ added d,
        [seq updateType r | r <- new]
        = nseq (size (removed d)) (u "removed") ++ nseq (size (added d)) (u "added"),
        [seq dateTime r | r <- new]
        = [seq Date_toISOString env (clock w + k) | k <- iota 0 (size new)]
      & clock w' = clock w + size new].
Proof.
rewrite saveDataFileToS3E; case: ifP => // _ [_ <-] d.
exists (reconciled diff env rows prior w); split=> //.
rewrite /appendedTo /= drop_size_cat // -/d; split.
- by rewrite map_cat !stamped_instrument.
- by rewrite map_cat !stamped_updateType.
- rewrite map_cat !stamped_dateTime size_cat !size_stamped iotaD map_cat add0n.
  congr (_ ++ _); rewrite -[size (removed d)]addn0 iotaDl -map_comp.
  by apply: eq_map => k /=; rewrite addn0 addnA.
- by rewrite size_cat !size_stamped.
Qed.

Section ContractEdges.

Variables (T : Type) (compareFunc : T -> T -> bool).

Lemma mask_none (m : bitseq) (s : seq T) :
  size m = size s -> count id m = 0 -> mask [seq ~~ b | b <- m] s = s.
Proof.
elim: m s => [|b m IH] [|x s] //= [sz]; case: b => //=.
by rewrite add0n => /(IH _ sz) ->.
Qed.

(** Against an empty new array everything is removed. *)
Lemma lcsDiff_nil_new (a : seq T) d :
  lcsDiff compareFunc a [::] d -> removed d = a /\ added d = [::].
Proof.
move=> [ma [mb [/and3P [/eqP sa + al] -> -> _]]].
rewrite size_eq0 => /eqP mb0; rewrite mb0 /= in al *.
split=> //; apply: mask_none => //.
by move: al; rewrite all2E => /andP [/eqP + _]; rewrite size_mask.
Qed.

(** Against an empty old array everything is added. *)
Lemma lcsDiff_nil_old (b : seq T) d :
  lcsDiff compareFunc [::] b d -> removed d = [::] /\ added d = b.
Proof.
move=> [ma [mb [/and3P [+ /eqP sb al] -> -> _]]].
rewrite size_eq0 => /eqP ma0; move: al; rewrite ma0 all2E /= => /andP [/eqP + _].
by rewrite size_mask // => /esym none; split=> //; apply: mask_none.
Qed.

End ContractEdges.

Lemma Array_sort_nil (T : Type) (compare : T -> T -> Z) : Array_sort compare [::] = [::].
Proof. by []. Qed.

Section Edges.

Variable diff : ArrayDiff.
Hypothesis contract : diffContract diff.

(** X8: an empty selection is not guarded against: every instrument of
    the prior snapshot is recorded as removed, in ascending order, and the
    persisted snapshot becomes empty. *)
Theorem empty_selection env prior w ups w' :
  saveDataFileToS3 diff env [::] prior w = (Return ups, w') ->
  exists after,
    [/\ data_json w' = Some after, instruments after = [::]
      & appendedTo prior after
        = stamped env (u "removed") (clock w)
            (Array_sort instrumentSortCompare (instruments prior))].
Proof.
move=> /saveDataFileToS3_Return [_ _ written _].
exists (reconciled diff env [::] prior w); split=> //.
rewrite /appendedTo /= drop_size_cat //.
have [-> ->] := lcsDiff_nil_new (contract (fun a b => isinCode a == isinCode b)
                                   (priorSnapshot prior) [::]).
by rewrite /= cats0.
Qed.

(** X9: against an empty prior snapshot every selected instrument is
    recorded as added, in ascending order. *)
Theorem empty_prior env rows prior w ups w' :
  instruments prior = [::] ->
  saveDataFileToS3 diff env rows prior w = (Return ups, w') ->
  exists after,
    [/\ data_json w' = Some after,
        instruments after
        = Array_sort instrumentSortCompare [seq createInstrument r | r <- rows]
      & appendedTo prior after
        = stamped env (u "added") (clock w)
            (Array_sort instrumentSortCompare [seq createInstrument r | r <- rows])].
Proof.
move=> empty /saveDataFileToS3_Return [_ _ written _].
exists (reconciled diff env rows prior w); split=> //.
rewrite /appendedTo /= drop_size_cat //.
rewrite /snapshotDiff /priorSnapshot empty.
have [-> ->] := lcsDiff_nil_old (contract (fun a b => isinCode a == isinCode b)
                                   [::] (newSnapshot rows)).
by rewrite /= addn0.
Qed.

(** X10: the diff sees the isinCode only: when the selection has the
    isinCodes of a duplicate-free prior snapshot, whatever the other
    fields, no record is appended, and the persisted instruments are the
    selected ones, with their new field values. *)
Theorem field_drift_silent env rows prior w ups w' :
  uniq (isinCodes (instruments prior)) ->
  perm_eq (isinCodes [seq createInstrument r | r <- rows])
          (isinCodes (instruments prior)) ->
  saveDataFileToS3 diff env rows prior w = (Return ups, w') ->
  exists after,
    [/\ data_json w' = Some after, appendedTo prior after = [::],
        updates after = updates prior
      & instruments after
        = Array_sort instrumentSortCompare [seq createInstrument r | r <- rows]].
Proof.
move=> uP perm /saveDataFileToS3_Return [_ _ written _].
have uN : uniq (isinCodes [seq createInstrument r | r <- rows]).
  by rewrite (perm_uniq perm).
have keys : [seq isinCode i | i <- priorSnapshot prior]
            = [seq isinCode i | i <- newSnapshot rows].
  apply: (irr_sorted_eq js_lt_trans js_lt_irreflexive).
  - by rewrite sorted_map; apply: Array_sort_strict.
  - by rewrite sorted_map; apply: Array_sort_strict.
  - move=> k; rewrite -!/(isinCodes _) !(perm_mem (isinCodes_sort _)).
    by rewrite (perm_mem perm).
have [rem add] := lcsDiff_same keys
  (contract (fun a b => isinCode a == isinCode b) (priorSnapshot prior)
     (newSnapshot rows)).
exists (reconciled diff env rows prior w); split=> //.
- by rewrite /appendedTo /= drop_size_cat // /snapshotDiff rem add.
- by rewrite /= /snapshotDiff rem add /= cats0.
Qed.

(** X11: the state written by the bootstrap is one against which the
    same selection reconciles to nothing: the log stays empty and the
    snapshot is written again as it is. *)
Theorem bootstrap_idempotent env env' rows w out w1 first w2 ups w3 after :
  initDataFileToS3 env rows w = (Return out, w1) ->
  data_json w1 = Some first ->
  saveDataFileToS3 diff env' rows first w2 = (Return ups, w3) ->
  data_json w3 = Some after ->
  [/\ updates first = [::], updates after = [::], ups = [::]
    & instruments after = instruments first].
Proof.
rewrite /initDataFileToS3 /putObject_data /s3Request.
case: ifP => // _ [_ <-] /= [<-].
move=> /saveDataFileToS3_Return [_ -> -> _] [<-] /=.
have [-> ->] := @snapshotDiff_same diff contract rows
                  {| instruments := newSnapshot rows; updates := [::] |} erefl.
by [].
Qed.

End Edges.

(** ** The invocation *)

Lemma newEvents0 w : newEvents w w = [::].
Proof. by rewrite /newEvents drop_size. Qed.

Lemma newEvents_requested w w' : newEvents w (requested w') = newEvents w w'.
Proof. by []. Qed.

Lemma newEvents_cat w w' s :
  events w' = events w ++ s -> newEvents w w' = s.
Proof. by rewrite /newEvents => ->; rewrite drop_size_cat. Qed.

(** The sort for presentation: a permutation, descending by time when
    every stamp is a date. *)
Lemma byDateDescending_sorted env s :
  all (fun r => timeOf env r) s ->
  descending env (Array_sort (byDateDescending env) s).
Proof.
move=> dated; rewrite /descending /Array_sort.
have total : total (fun a b => (byDateDescending env a b <=? 0)%Z).
  move=> a b; rewrite /byDateDescending.
  case: (Date_parse env (dateTime a)) => [ta|] //=;
    case: (Date_parse env (dateTime b)) => [tb|] //=.
  by apply/orP; case: (Z.le_ge_cases ta tb) => le; [right | left];
    apply/Z.leb_le/Z.le_sub_0.
have := sort_sorted total s.
apply: sub_in_sorted (_ : all (fun r => timeOf env r) _); last by rewrite all_sort.
move=> a b; rewrite !unfold_in /byDateDescending /timeOf.
case: (Date_parse env (dateTime a)) => [ta|] //;
  case: (Date_parse env (dateTime b)) => [tb|] // _ _ /Z.leb_le /Z.le_sub_0 le.
exact/Z.leb_le.
Qed.

Section Invocation.

Variable diff : ArrayDiff.
Variable env : Env.

(** What [present] does to a world. *)
Lemma presentP instrumentUpdates w outcome w' :
  present env instrumentUpdates w = (outcome, w') ->
  let ups := Array_sort (byDateDescending env) instrumentUpdates in
  data_json w' = data_json w /\
  ((exists e, [/\ outcome = Throw e, e = RenderError \/ e = StorageError,
                  events w' = events w ++ [:: RenderFile ups]
                & instrument_updates_html w' = instrument_updates_html w]) \/
   (exists html, [/\ outcome = Return "instrument updates generated"%string,
                     ejs_renderFile env ups = Some html,
                     events w' = events w ++ [:: RenderFile ups; PutHtml html]
                   & instrument_updates_html w' = Some html])).
Proof.
rewrite /present /=.
case render: (ejs_renderFile env _) => [html|]; last first.
  case=> <- <- /=; split=> //; left; exists RenderError.
  by split; rewrite ?cats1; auto.
case: ifP => _ [<- <-] /=; split=> //.
  by left; exists StorageError; split; rewrite ?cats1; auto.
by right; exists html; split=> //; rewrite -!cats1 -catA.
Qed.

(** X12: the effects of an invocation are of three kinds. Either nothing
    is written and the run ends in an error; or ['data.json'] is written,
    then the list is rendered, and the run ends in a rendering or storage
    error with the page untouched; or the page is written too, it is what
    the template made of the list, and the run returns. ['data.json'] is
    never written after a rendering and never twice. *)
Theorem Handler_effects w outcome w' :
  Handler diff env w = (outcome, w') ->
  [\/ [/\ exists e, outcome = Throw e, newEvents w w' = [::],
          data_json w' = data_json w
        & instrument_updates_html w' = instrument_updates_html w],
      exists d ups e,
        [/\ outcome = Throw e, e = RenderError \/ e = StorageError,
            newEvents w w' = [:: PutDataFile d; RenderFile ups],
            data_json w' = Some d
          & instrument_updates_html w' = instrument_updates_html w]
    | exists d ups html,
        [/\ outcome = Return "instrument updates generated"%string,
            ejs_renderFile env ups = Some html,
            newEvents w w' = [:: PutDataFile d; RenderFile ups; PutHtml html],
            data_json w' = Some d
          & instrument_updates_html w' = Some html]].
Proof.
rewrite HandlerE /HandlerClosed; cbv zeta; set G := [\/ _, _ | _].
have after_write ups d w3 :
    events w3 = events w ++ [:: PutDataFile d] -> data_json w3 = Some d ->
    instrument_updates_html w3 = instrument_updates_html w ->
    present env ups w3 = (outcome, w') -> G.
  move=> ev3 dj3 html3 /presentP [dj]; rewrite /G.
  move=> [[e [-> kind ev html']]|[html [-> render ev html']]].
    constructor 2; exists d, (Array_sort (byDateDescending env) ups), e.
    by split=> //; rewrite ?dj ?html' //; apply: newEvents_cat; rewrite ev ev3 -catA.
  constructor 3; exists d, (Array_sort (byDateDescending env) ups), html.
  by split=> //; rewrite ?dj //; apply: newEvents_cat; rewrite ev ev3 -catA.
have nothing e w0 :
    events w0 = events w -> data_json w0 = data_json w ->
    instrument_updates_html w0 = instrument_updates_html w ->
    (Throw e, w0) = (outcome, w') -> G.
  move=> ev dj html; rewrite /G => -[<- <-].
  constructor 1; split=> //; first by exists e.
  by rewrite /newEvents ev drop_size.
case: (request_get env) => [b|]; last exact: nothing.
case: (doParseAndValidation b) => [rows|e]; last exact: nothing.
case: ifP => _; first exact: nothing.
case: ifP => _; first exact: nothing.
case: (data_json w) => [prior|]; last first.
  by apply: after_write; rewrite //= cats1.
case: ifP => _; first exact: nothing.
by apply: after_write; rewrite //= cats1.
Qed.

End Invocation.

(** The cells of a validated row keep the constraints of their fields. *)
Lemma rowOk_fields row r :
  rowOk row -> asInstrumentRow row = Some r ->
  [&& (1 <= size (cell0 r)) && (size (cell0 r) <= 12),
      (2 <= size (cell1 r)) && (size (cell1 r) <= 24),
      (2 <= size (cell2 r)) && (size (cell2 r) <= 64)
    & ISIN_CODE_REGEX (cell3 r)].
Proof.
case: row => // elements /andP [_]; rewrite /fieldsOk /= /constraint /= andbT.
case: elements => [|e0 [|e1 [|e2 [|e3 [|e4 rest]]]]] //=; rewrite ?andbF //.
case: e0 => [|?|?|s0|?|?] //=; case: e1 => [|?|?|s1|?|?] //=; rewrite ?andbF //.
case: e2 => [|?|?|s2|?|?] //=; rewrite ?andbF //.
case: e3 => [|?|?|s3|?|?] //=; rewrite ?andbF //.
case: e4 => [|?|?|s4|?|?] //=; rewrite ?andbF //.
rewrite -/(isinPattern (Some (JString s3))) -ISIN_CODE_REGEX_pattern.
by move=> /and5P [c0 c1 c2 c3 _] [<-] /=; rewrite c0 c1 c2 c3.
Qed.

Lemma typedRows_fields rows :
  all rowOk rows ->
  all (fun r => [&& (1 <= size (cell0 r)) && (size (cell0 r) <= 12),
                    (2 <= size (cell1 r)) && (size (cell1 r) <= 24),
                    (2 <= size (cell2 r)) && (size (cell2 r) <= 64)
                  & ISIN_CODE_REGEX (cell3 r)]) (typedRows rows).
Proof.
elim: rows => [|row rows IH] //= /andP [ok /IH {}IH]; rewrite /typedRows /=.
case E: (asInstrumentRow row) => [r|] //=.
by rewrite (rowOk_fields ok E).
Qed.

(** Every selected row of a validated body gives a tracked instrument. *)
Lemma selected_tracked b rows :
  doParseAndValidation b = Return rows ->
  all tracked [seq createInstrument r | r <- selectInstruments (typedRows rows)].
Proof.
move=> /doParseAndValidation_rowOk /typedRows_fields fields.
rewrite all_map /selectInstruments all_filter.
apply: sub_all fields => r /and4P [c0 c1 c2 c3].
by rewrite /tracked /= c0 c1 c2 c3 /=; apply: implybb.
Qed.

Section Written.

Variable diff : ArrayDiff.
Variable env : Env.

(** What an invocation writes under ['data.json'] and what it renders. *)
Lemma Handler_written w outcome w' d rest :
  Handler diff env w = (outcome, w') ->
  newEvents w w' = PutDataFile d :: rest ->
  exists b rows,
    [/\ request_get env = Some b, doParseAndValidation b = Return rows,
        instruments d
        = Array_sort instrumentSortCompare
            [seq createInstrument r | r <- selectInstruments (typedRows rows)],
        if data_json w is Some prior
        then updates d = updates prior ++ appendedTo prior d
        else updates d = [::]
      & exists tail,
          rest = RenderFile (Array_sort (byDateDescending env) (updates d)) :: tail].
Proof.
rewrite HandlerE /HandlerClosed; cbv zeta.
have nothing e w0 : events w0 = events w -> (Throw e, w0) = (outcome, w') ->
    newEvents w w' = PutDataFile d :: rest -> False.
  by move=> ev [_ <-]; rewrite /newEvents ev drop_size.
have rendered ups d0 w3 :
    present env ups w3 = (outcome, w') ->
    events w3 = rcons (events w) (PutDataFile d0) ->
    newEvents w w' = PutDataFile d :: rest ->
    d0 = d /\ exists tail, rest = RenderFile (Array_sort (byDateDescending env) ups) :: tail.
  move=> /presentP [_ [[e [_ _ ev _]]|[html [_ _ ev _]]]] ev3;
    rewrite /newEvents ev ev3 -cats1 -catA drop_size_cat //= => -[-> <-]; split=> //.
    by exists [::].
  by exists [:: PutHtml html].
case get: (request_get env) => [b|]; last by move=> run ev; case: (nothing _ _ _ run ev).
case valid: (doParseAndValidation b) => [rows|e];
  last by move=> run ev; case: (nothing _ _ _ run ev).
case: ifP => _; first by move=> run ev; case: (nothing _ _ _ run ev).
case: ifP => _; first by move=> run ev; case: (nothing _ _ _ run ev).
case: (data_json w) => [prior|]; last first.
  move=> run ev; have [<- tail] := rendered _ _ _ run erefl ev.
  by exists b, rows; split.
case: ifP => _; first by move=> run ev; case: (nothing _ _ _ run ev).
move=> run ev; have [<- tail] := rendered _ _ _ run erefl ev.
exists b, rows; split=> //.
exact: appendedTo_reconciled.
Qed.

(** X13: whatever an invocation writes under ['data.json'] holds only
    tracked instruments: each has a type of [INSTRUMENT_TYPES_TO_SAVE], an
    isinCode matching [ISIN_CODE_REGEX], a ticker of 1 to 12 code units
    and names of 2 to 24 and 2 to 64; and they are in ascending order of
    isinCode. *)
Theorem persisted_tracked w outcome w' d rest :
  Handler diff env w = (outcome, w') ->
  newEvents w w' = PutDataFile d :: rest ->
  all tracked (instruments d) /\ ascending (instruments d).
Proof.
move=> run ev; have [b [rows [_ valid -> _ _]]] := Handler_written run ev.
split; last exact: Array_sort_ascending.
by rewrite /Array_sort all_sort; apply: selected_tracked valid.
Qed.

(** X14: the list handed to the template is the whole log just written
    under ['data.json'], prior records included, sorted for presentation:
    a permutation of it, descending by time whenever every stamp is a
    date. *)
Theorem rendered_log w outcome w' d ups rest :
  Handler diff env w = (outcome, w') ->
  newEvents w w' = PutDataFile d :: RenderFile ups :: rest ->
  [/\ ups = Array_sort (byDateDescending env) (updates d),
      perm_eq ups (updates d)
    & all (fun r => timeOf env r) (updates d) -> descending env ups].
Proof.
move=> run ev; have [b [rows [_ _ _ _ [tail [-> _]]]]] := Handler_written run ev.
split=> //; first by rewrite /Array_sort perm_sort.
exact: byDateDescending_sorted.
Qed.


End Written.

(** ** The invocation of part_000 *)

Local Arguments saveDataFileToS3 : simpl never.

Lemma Part000_saveDataFileToS3E diff env :
  Part000Run.saveDataFileToS3 diff env = saveDataFileToS3 diff env.
Proof. by []. Qed.

(** X16: the chain of promises of part_000 and the [await] sequence of
    instrument-updates-generator.js are the same invocation wherever the
    two fetches and the two validators agree: when the upstream answer, if
    there is one, has status 200 and a body none of whose rows has six or
    seven cells, they end with the same outcome in the same world. *)
Theorem Part000_Handler_agrees diff env statusCode w :
  (forall b, request_get env = Some b ->
             statusCode = 200 /\ all (fun row => ~~ longRow row) (bodyRows b)) ->
  Part000Run.Handler diff env statusCode w = Handler diff env w.
Proof.
move=> short; rewrite HandlerE /HandlerClosed /Part000Run.Handler.
rewrite Part000_saveDataFileToS3E /Part000Run.getInstrumentsData.
rewrite /Part000Run.doesDataFileExist /Part000Run.readDataFileFromS3.
rewrite /Part000Run.initDataFileToS3 /putObject_data /bind /s3Request /lift.
case get: (request_get env) => [b|] //=.
have [-> short_b] := short b get; rewrite /=.
rewrite (doParseAndValidation_short short_b).
case: (doParseAndValidation b) => [rows|e] //=.
case: (s3_rejects env (requests w)) => //=.
have tail ups w3 :
    (let (o1, w'1) :=
       let (o1, w'1) := renderHtml env (Array_sort (byDateDescending env) ups) w3 in
       match o1 with
       | Return a1 => uploadInstrumentUpdatesToS3 env a1 w'1
       | Throw e => (Throw e, w'1)
       end in
     match o1 with
     | Return _ => ret "instrument updates generated"%string w'1
     | Throw e => (Throw e, w'1)
     end) = present env ups w3.
  rewrite /present /renderHtml /uploadInstrumentUpdatesToS3 /putObject_html.
  rewrite /s3Request /=.
  case: (ejs_renderFile env _) => [html|] //=.
  by case: (s3_rejects env _).
case prior: (data_json w) => [prior0|] /=; last first.
  by case: (s3_rejects env (requests w).+1) => //=; apply: tail.
rewrite prior; case: (s3_rejects env (requests w).+1) => //=.
rewrite saveDataFileToS3E /=.
by case: (s3_rejects env (requests w).+2) => //=.
Qed.

(** X18: part_000 aborts on every status other than 200 before anything
    else happens, also on a status of 2xx with which
    instrument-updates-generator.js goes on: the invocation ends with the
    fetch error in an unchanged world. *)
Theorem Part000_Handler_other_status diff env statusCode w :
  statusCode <> 200 ->
  Part000Run.Handler diff env statusCode w = (Throw FetchError, w).
Proof.
move=> /eqP other; rewrite /Part000Run.Handler /Part000Run.getInstrumentsData.
by rewrite /bind; case: (request_get env) => [b|] //=; rewrite other.
Qed.

(** X17: an upstream document that fails validation stops the invocation
    before anything else happens: it ends with the validator's error,
    carrying the offending element, and the world is unchanged, with no
    request made to the bucket and the clock not read. *)
Theorem Handler_rejects_body diff env w parsedBody :
  request_get env = Some (Some parsedBody) ->
  parsedBody <> JNull ->
  ~~ bodyOk parsedBody ->
  exists msg e,
    Handler diff env w = (Throw (InstrumentError msg e), w) /\ offending parsedBody e.
Proof.
move=> got nn bad; rewrite HandlerE /HandlerClosed got.
have := doParseAndValidationP nn; rewrite (negbTE bad).
by move=> [msg [e [-> off]]]; exists msg, e.
Qed.

Lemma Handler_rejects_body_witness :
  [/\ request_get (withBody shortRowBody) = Some (Some shortRowBody),
      shortRowBody <> JNull & ~~ bodyOk shortRowBody] /\
  exists msg e,
    Handler lcs_diff (withBody shortRowBody) sampleWorld
    = (Throw (InstrumentError msg e), sampleWorld) /\ offending shortRowBody e.
Proof.
have got : request_get (withBody shortRowBody) = Some (Some shortRowBody) by [].
have nn : shortRowBody <> JNull by [].
have bad : ~~ bodyOk shortRowBody by [].
split; first by split; [exact: got | exact: nn | exact: bad].
exact: (Handler_rejects_body lcs_diff sampleWorld got nn bad).
Defined.

(** ** The properties above on the sample data *)

Lemma validateFields_first_witness :
  [/\ 1 < 5, forall j, j < 1 -> constraint j (cell shortNameRow j)
    & ~~ constraint 1 (cell shortNameRow 1)]
  /\ validateFields shortNameRow
     = Throw (InstrumentError "invalid instrument short name" (Some (JString (u "X")))).
Proof.
have before j : j < 1 -> constraint j (cell shortNameRow j) by case: j.
have bad : ~~ constraint 1 (cell shortNameRow 1) by [].
split; first by split.
exact: (@validateFields_first shortNameRow 1 isT before bad).
Defined.

Lemma validateRow_ignores_tail_witness :
  [/\ size sampleCells = 5, size [:: JNull] <= 2 & size [:: JBool true; JNull] <= 2]
  /\ validateRow (JArray (sampleCells ++ [:: JNull]))
     = validateRow (JArray (sampleCells ++ [:: JBool true; JNull])).
Proof.
split; first by split.
exact: (@validateRow_ignores_tail sampleCells [:: JNull] [:: JBool true; JNull]
          erefl isT isT).
Defined.

Lemma Part000_validated_witness :
  Part000.doParseAndValidation (Some sampleBody) = Return [:: sampleRow] /\
  (0 < size [:: sampleRow])
  && all (fun row => rowOk row && (len (Some row) == 5)) [:: sampleRow].
Proof.
have accepted : Part000.doParseAndValidation (Some sampleBody) = Return [:: sampleRow].
  by [].
by split; [exact: accepted | exact: Part000_validated accepted].
Defined.


Lemma appended_stamps_witness :
  sampleRun = (Return (updates sampleAfter), sampleRun.2) /\
  exists after,
    data_json sampleRun.2 = Some after /\
    [/\ [seq instrument r | r <- appendedTo samplePrior after]
        = [:: createInstrument mol; createInstrument richter],
        [seq updateType r | r <- appendedTo samplePrior after]
        = [:: u "removed"; u "added"],
        [seq dateTime r | r <- appendedTo samplePrior after]
        = [seq sampleClock (0 + k) | k <- iota 0 (size (appendedTo samplePrior after))]
      & clock sampleRun.2 = 0 + size (appendedTo samplePrior after)].
Proof.
have run : sampleRun = (Return (updates sampleAfter), sampleRun.2) by [].
split; first exact: run.
have [after [written [i t d c]]] := appended_stamps run.
by exists after; split.
Defined.

Lemma empty_selection_witness :
  (diffContract lcs_diff /\ emptyRun = (Return (returned emptyRun), emptyRun.2)) /\
  exists after,
    [/\ data_json emptyRun.2 = Some after, instruments after = [::]
      & appendedTo samplePrior after
        = stamped sampleEnv (u "removed") 0
            [:: createInstrument otp; createInstrument mol]].
Proof.
have run : emptyRun = (Return (returned emptyRun), emptyRun.2) by [].
split; first by split; [exact: lcs_diff_contract | exact: run].
exact: (empty_selection lcs_diff_contract run).
Defined.

Lemma empty_prior_witness :
  [/\ diffContract lcs_diff, instruments emptyPrior = [::]
    & firstRun = (Return (returned firstRun), firstRun.2)] /\
  exists after,
    [/\ data_json firstRun.2 = Some after,
        instruments after = [:: createInstrument otp; createInstrument richter]
      & appendedTo emptyPrior after
        = stamped sampleEnv (u "added") 0
            [:: createInstrument otp; createInstrument richter]].
Proof.
have run : firstRun = (Return (returned firstRun), firstRun.2) by [].
split; first by split=> //; exact: lcs_diff_contract.
have empty : instruments emptyPrior = [::] by [].
exact: (empty_prior lcs_diff_contract empty run).
Defined.

Lemma field_drift_silent_witness :
  [/\ diffContract lcs_diff, uniq (isinCodes (instruments samplePrior)),
      perm_eq (isinCodes [seq createInstrument r | r <- renamedRows])
              (isinCodes (instruments samplePrior))
    & renamedRun = (Return (returned renamedRun), renamedRun.2)] /\
  exists after,
    [/\ data_json renamedRun.2 = Some after,
        appendedTo samplePrior after = [::],
        updates after = updates samplePrior
      & instruments after = [seq createInstrument r | r <- renamedRows]].
Proof.
have run : renamedRun = (Return (returned renamedRun), renamedRun.2) by [].
have uP : uniq (isinCodes (instruments samplePrior)) by [].
have perm : perm_eq (isinCodes [seq createInstrument r | r <- renamedRows])
                    (isinCodes (instruments samplePrior)) by [].
split; first by split=> //; exact: lcs_diff_contract.
exact: (field_drift_silent lcs_diff_contract uP perm run).
Defined.

Lemma bootstrap_idempotent_witness :
  [/\ diffContract lcs_diff,
      bootstrapWrite = (Return {| Body := None |}, bootstrapWrite.2),
      data_json bootstrapWrite.2
      = Some {| instruments := [:: createInstrument otp; createInstrument richter];
                updates := [::] |},
      afterBootstrap = (Return (returned afterBootstrap), afterBootstrap.2)
    & data_json afterBootstrap.2
      = Some {| instruments := [:: createInstrument otp; createInstrument richter];
                updates := [::] |}] /\
  returned afterBootstrap = [::].
Proof.
have init : bootstrapWrite = (Return {| Body := None |}, bootstrapWrite.2) by [].
have first : data_json bootstrapWrite.2
    = Some {| instruments := [:: createInstrument otp; createInstrument richter];
              updates := [::] |} by [].
have run : afterBootstrap = (Return (returned afterBootstrap), afterBootstrap.2) by [].
have written : data_json afterBootstrap.2
    = Some {| instruments := [:: createInstrument otp; createInstrument richter];
              updates := [::] |} by [].
split; first by split=> //; exact: lcs_diff_contract.
by have [_ _ -> _] := bootstrap_idempotent lcs_diff_contract init first run written.
Defined.

Lemma Handler_effects_witness :
  sampleInvocation = (sampleInvocation.1, sampleInvocation.2) /\
  exists d ups html,
    [/\ sampleInvocation.1 = Return "instrument updates generated"%string,
        ejs_renderFile sampleEnv ups = Some html,
        newEvents sampleWorld sampleInvocation.2
        = [:: PutDataFile d; RenderFile ups; PutHtml html],
        data_json sampleInvocation.2 = Some d
      & instrument_updates_html sampleInvocation.2 = Some html].
Proof.
have run : sampleInvocation = (sampleInvocation.1, sampleInvocation.2) by [].
split; first exact: run.
by case: (Handler_effects run) => [[[e]]|[d [ups [e []]]]|].
Defined.

Lemma persisted_tracked_witness :
  (sampleInvocation = (sampleInvocation.1, sampleInvocation.2) /\
   newEvents sampleWorld sampleInvocation.2
   = PutDataFile invocationAfter :: behead (newEvents sampleWorld sampleInvocation.2)) /\
  all tracked (instruments invocationAfter) /\ ascending (instruments invocationAfter).
Proof.
have run : sampleInvocation = (sampleInvocation.1, sampleInvocation.2) by [].
have ev : newEvents sampleWorld sampleInvocation.2
          = PutDataFile invocationAfter
              :: behead (newEvents sampleWorld sampleInvocation.2) by [].
split; first by split; [exact: run | exact: ev].
exact: (persisted_tracked run ev).
Defined.

Lemma rendered_log_witness :
  (laterInvocation = (laterInvocation.1, laterInvocation.2) /\
   newEvents laterWorld laterInvocation.2
   = [:: PutDataFile laterAfter; RenderFile [:: laterRecord; oldUpdate];
         PutHtml (u "<html></html>")]) /\
  [/\ [:: laterRecord; oldUpdate]
      = Array_sort (byDateDescending sampleEnv) (updates laterAfter),
      perm_eq [:: laterRecord; oldUpdate] (updates laterAfter)
    & all (fun r => timeOf sampleEnv r) (updates laterAfter) ->
      descending sampleEnv [:: laterRecord; oldUpdate]].
Proof.
have run : laterInvocation = (laterInvocation.1, laterInvocation.2) by [].
have ev : newEvents laterWorld laterInvocation.2
          = [:: PutDataFile laterAfter; RenderFile [:: laterRecord; oldUpdate];
                PutHtml (u "<html></html>")] by [].
split; first by split; [exact: run | exact: ev].
exact: (rendered_log run ev).
Defined.


Lemma Part000_Handler_agrees_witness :
  (forall b, request_get sampleEnv = Some b ->
             200 = 200 /\ all (fun row => ~~ longRow row) (bodyRows b)) /\
  Part000Run.Handler lcs_diff sampleEnv 200 sampleWorld
  = Handler lcs_diff sampleEnv sampleWorld.
Proof.
have short : forall b, request_get sampleEnv = Some b ->
                       200 = 200 /\ all (fun row => ~~ longRow row) (bodyRows b).
  by move=> b [<-].
split; first exact: short.
exact: (Part000_Handler_agrees lcs_diff sampleWorld short).
Defined.

Lemma Part000_Handler_other_status_witness :
  203 <> 200 /\
  Part000Run.Handler lcs_diff sampleEnv 203 sampleWorld = (Throw FetchError, sampleWorld).
Proof.
have other : 203 <> 200 by [].
split; first exact: other.
exact: (Part000_Handler_other_status lcs_diff sampleEnv sampleWorld other).
Defined.

(** The two invocations on an answer of status 203: part_000 stops at the
    fetch, instrument-updates-generator.js writes both objects. *)
Example Handler_status_203 :
  Part000Run.Handler lcs_diff sampleEnv 203 sampleWorld = (Throw FetchError, sampleWorld) /\
  sampleInvocation.1 = Return "instrument updates generated"%string /\
  data_json sampleInvocation.2 = Some invocationAfter.
Proof. by []. Qed.
